(** * TypeSeq: the encode / decode / decodeWithSchema pipeline

    A shallow embedding of the TypeScript source of the [typeseq] package
    (the functions [splitOutsideQuotes], [inferAlias], [encodeValue],
    [encode], [decode], [normalizeSchemaValue], [decodeWithSchema] and the
    parser table [ALIAS_TO_PARSER]), followed by the properties that its
    specification states.

    Modelling conventions.
    - A JavaScript string is the list of its UTF-16 code units ([jsstring]);
      a separator character is one code unit.
    - A thrown [Error] is a value of type [error], carrying what its message
      interpolates; a function that may throw returns an [outcome].
    - Arguments have the types the TypeScript signatures give them, so the
      checks for a non-string document and for a non-object record have no
      counterpart, except [isPlainObject] on the prototype.
    - An object is the list of its own enumerable string-keyed properties,
      in the order [Object.keys] lists them, together with its prototype.
      Property reads, the [in] operator and assignments follow the prototype
      chain as the language defines them for objects made by the literal
      [{}]: the members of [Object.prototype] are visible to [in] and to
      reads, and an assignment to [__proto__] runs the inherited setter.
    - What the source takes from the host for numbers and dates
      ([Number.isFinite], [String(n)], [Number(s)], [toISOString],
      [new Date(s)]) is the class [Host], over an abstract type of numbers.
      [JSON.stringify] and [JSON.parse] on strings, [trim], [toLowerCase] as
      far as the source uses it, and the default [sort] are written out.
      The module [Reference] gives an executable host for the examples. *)

From Stdlib Require Import List NArith ZArith Bool Lia String Ascii.
From Stdlib Require Import Permutation Sorted.
Import ListNotations.

Set Implicit Arguments.
Open Scope N_scope.
Open Scope list_scope.

(** ** Strings as sequences of UTF-16 code units *)

Definition jsstring := list N.

Definition u16 (s : string) : jsstring :=
  map N_of_ascii (list_ascii_of_string s).

Definition dquote : N := 34.
Definition backslash : N := 92.
Definition semicolon : N := 59.
Definition bar : N := 124.

Fixpoint str_eqb (a b : jsstring) : bool :=
  match a, b with
  | [], [] => true
  | x :: a', y :: b' => (x =? y) && str_eqb a' b'
  | _, _ => false
  end.

(** [Array.prototype.join] with a one-unit separator. *)
Fixpoint join (sep : N) (l : list jsstring) : jsstring :=
  match l with
  | [] => []
  | [x] => x
  | x :: l' => x ++ sep :: join sep l'
  end.

(** ** Tokenizer: [splitOutsideQuotes] *)

Module Tokenizer.

(** The four locals of the loop. *)
Record scanner := Scanner {
  out : list jsstring;
  buf : jsstring;
  inQuotes : bool;
  escaped : bool
}.

Definition start : scanner := Scanner [] [] false false.

(** One iteration of the [for] loop on the code unit [ch]. *)
Definition step (sepChar : N) (st : scanner) (ch : N) : scanner :=
  if escaped st then
    Scanner (out st) (buf st ++ [ch]) (inQuotes st) false
  else if ch =? backslash then
    Scanner (out st) (buf st ++ [ch]) (inQuotes st) true
  else if ch =? dquote then
    Scanner (out st) (buf st ++ [ch]) (negb (inQuotes st)) false
  else if negb (inQuotes st) && (ch =? sepChar) then
    Scanner (out st ++ [buf st]) [] (inQuotes st) false
  else
    Scanner (out st) (buf st ++ [ch]) (inQuotes st) false.

Definition splitOutsideQuotes (input : jsstring) (sepChar : N) : list jsstring :=
  let st := fold_left (step sepChar) input start in
  out st ++ [buf st].

(** The same scan read from the left: the fields of the rest of the input,
    given the two flags. The head of the result is the field in progress. *)
Definition push_head (ch : N) (l : list jsstring) : list jsstring :=
  match l with
  | [] => [[ch]]
  | f :: r => (ch :: f) :: r
  end.

Fixpoint fields (sepChar : N) (inQ esc : bool) (input : jsstring)
  : list jsstring :=
  match input with
  | [] => [[]]
  | ch :: rest =>
      if esc then push_head ch (fields sepChar inQ false rest)
      else if ch =? backslash then push_head ch (fields sepChar inQ true rest)
      else if ch =? dquote then push_head ch (fields sepChar (negb inQ) false rest)
      else if negb inQ && (ch =? sepChar) then [] :: fields sepChar inQ false rest
      else push_head ch (fields sepChar inQ false rest)
  end.

(** The number of delimiting separators as the specification words it: an
    occurrence of the separator counts when it is not escaped (the unit before
    it is not a backslash that is itself unescaped) and lies outside the
    double-quote state, where a backslash escapes the next unit and an
    unescaped double quote toggles the quote state. *)
Fixpoint effective_separators (sepChar : N) (inQ esc : bool) (input : jsstring)
  : nat :=
  match input with
  | [] => 0%nat
  | ch :: rest =>
      let here := if (ch =? sepChar) && negb esc && negb inQ then 1%nat else 0%nat in
      let esc' := negb esc && (ch =? backslash) in
      let inQ' := if negb esc && (ch =? dquote) then negb inQ else inQ in
      (here + effective_separators sepChar inQ' esc' rest)%nat
  end.

(** No unescaped double quote occurs in [input] when read with escape flag
    [esc]: a quote opened before [input] is never closed. *)
Fixpoint unterminated (esc : bool) (input : jsstring) : bool :=
  match input with
  | [] => true
  | ch :: rest =>
      if esc then unterminated false rest
      else if ch =? backslash then unterminated true rest
      else if ch =? dquote then false
      else unterminated false rest
  end.

(** The two flags after reading [input]. *)
Fixpoint flags (inQ esc : bool) (input : jsstring) : bool * bool :=
  match input with
  | [] => (inQ, esc)
  | ch :: rest =>
      if esc then flags inQ false rest
      else if ch =? backslash then flags inQ true rest
      else if ch =? dquote then flags (negb inQ) false rest
      else flags inQ false rest
  end.

(** No separator delimits in [input], read with the given flags. *)
Fixpoint quiet (sepChar : N) (inQ esc : bool) (input : jsstring) : bool :=
  match input with
  | [] => true
  | ch :: rest =>
      if esc then quiet sepChar inQ false rest
      else if ch =? backslash then quiet sepChar inQ true rest
      else if ch =? dquote then quiet sepChar (negb inQ) false rest
      else if negb inQ && (ch =? sepChar) then false
      else quiet sepChar inQ false rest
  end.

(** [input] holds no delimiter and leaves both flags cleared: the scanner
    passes over it as over one piece of a field. *)
Definition neutral (sepChar : N) (input : jsstring) : bool :=
  quiet sepChar false false input
  && match flags false false input with
     | (false, false) => true
     | _ => false
     end.

(** The last field of [l] continued by the first field of [r]. *)
Definition glue (l r : list jsstring) : list jsstring :=
  match r with
  | [] => l
  | f :: r' => removelast l ++ (last l [] ++ f) :: r'
  end.

End Tokenizer.

(** ** String methods used by the parsers *)

(** [WhiteSpace] and [LineTerminator] code units, which [trim] strips. *)
Definition is_whitespace (c : N) : bool :=
  (c =? 9) || (c =? 10) || (c =? 11) || (c =? 12) || (c =? 13) || (c =? 32)
  || (c =? 160) || (c =? 5760) || ((8192 <=? c) && (c <=? 8202))
  || (c =? 8232) || (c =? 8233) || (c =? 8239) || (c =? 8287)
  || (c =? 12288) || (c =? 65279).

Fixpoint trimStart (s : jsstring) : jsstring :=
  match s with
  | [] => []
  | c :: s' => if is_whitespace c then trimStart s' else s
  end.

Definition trimEnd (s : jsstring) : jsstring := rev (trimStart (rev s)).

Definition trim (s : jsstring) : jsstring := trimEnd (trimStart s).

(** [s.startsWith('"')] and [s.endsWith('"')]. *)
Definition startsWith_dquote (s : jsstring) : bool :=
  match s with
  | c :: _ => c =? dquote
  | [] => false
  end.

Definition endsWith_dquote (s : jsstring) : bool := startsWith_dquote (rev s).

(** [toLowerCase] on the letters A to Z; other code units are left as they
    are. The source only compares the lowered text with ['true'] and
    ['false'], and no code unit outside A to Z lowers to one of their
    letters, so the comparison is the one the full Unicode mapping gives. *)
Definition lower (c : N) : N :=
  if (65 <=? c) && (c <=? 90) then c + 32 else c.

Definition toLowerCase (s : jsstring) : jsstring := map lower s.

(** The order of the default [Array.prototype.sort]: strings compared unit by
    unit, a proper prefix first. *)
Fixpoint str_leb (a b : jsstring) : bool :=
  match a, b with
  | [], _ => true
  | _ :: _, [] => false
  | x :: a', y :: b' =>
      if x <? y then true else if y <? x then false else str_leb a' b'
  end.

Fixpoint insert (k : jsstring) (l : list jsstring) : list jsstring :=
  match l with
  | [] => [k]
  | h :: t => if str_leb k h then k :: l else h :: insert k t
  end.

Definition sort (l : list jsstring) : list jsstring := fold_right insert [] l.

(** Code points of a string: a leading surrogate followed by a trailing one is
    one code point, every other unit stands for itself. *)
Definition is_leading_surrogate (c : N) : bool := (55296 <=? c) && (c <=? 56319).
Definition is_trailing_surrogate (c : N) : bool := (56320 <=? c) && (c <=? 57343).

Fixpoint code_points (s : jsstring) : list N :=
  match s with
  | [] => []
  | c :: rest =>
      match rest with
      | c2 :: rest' =>
          if is_leading_surrogate c && is_trailing_surrogate c2
          then (65536 + (c - 55296) * 1024 + (c2 - 56320)) :: code_points rest'
          else c :: code_points rest
      | [] => [c]
      end
  end.

(** Lexicographic order on code points. *)
Definition codepoint_leb (a b : jsstring) : bool :=
  str_leb (code_points a) (code_points b).

(** ** JSON text of a string *)

Module JSON.

Definition hex_digit (d : N) : N := if d <? 10 then 48 + d else 87 + d.

(** [\uXXXX] with lower-case digits. *)
Definition unicode_escape (c : N) : jsstring :=
  [backslash; 117; hex_digit (c / 4096 mod 16); hex_digit (c / 256 mod 16);
   hex_digit (c / 16 mod 16); hex_digit (c mod 16)].

(** The letter of a two-unit escape, for the units that have one. *)
Definition short_escape (c : N) : option N :=
  if c =? 8 then Some 98          (* \b *)
  else if c =? 9 then Some 116    (* \t *)
  else if c =? 10 then Some 110   (* \n *)
  else if c =? 12 then Some 102   (* \f *)
  else if c =? 13 then Some 114   (* \r *)
  else if c =? dquote then Some dquote
  else if c =? backslash then Some backslash
  else None.

(** Body of [QuoteJSONString]: units below U+0020 and lone surrogates are
    escaped, surrogate pairs and all other units are copied. *)
Fixpoint quote_body (s : jsstring) : jsstring :=
  match s with
  | [] => []
  | c :: rest =>
      match short_escape c with
      | Some e => backslash :: e :: quote_body rest
      | None =>
          if c <? 32 then unicode_escape c ++ quote_body rest
          else if is_leading_surrogate c then
            match rest with
            | c2 :: rest' =>
                if is_trailing_surrogate c2 then c :: c2 :: quote_body rest'
                else unicode_escape c ++ quote_body rest
            | [] => unicode_escape c
            end
          else if is_trailing_surrogate c then unicode_escape c ++ quote_body rest
          else c :: quote_body rest
      end
  end.

(** [JSON.stringify(s)] for a string [s]. *)
Definition stringify (s : jsstring) : jsstring :=
  dquote :: quote_body s ++ [dquote].

Definition hex_value (c : N) : option N :=
  if (48 <=? c) && (c <=? 57) then Some (c - 48)
  else if (97 <=? c) && (c <=? 102) then Some (c - 87)
  else if (65 <=? c) && (c <=? 70) then Some (c - 55)
  else None.

Definition hex4_value (a b c d : N) : option N :=
  match hex_value a, hex_value b, hex_value c, hex_value d with
  | Some x, Some y, Some z, Some w => Some (x * 4096 + y * 256 + z * 16 + w)
  | _, _, _, _ => None
  end.

Definition unescape (e : N) : option N :=
  if e =? dquote then Some dquote
  else if e =? backslash then Some backslash
  else if e =? 47 then Some 47
  else if e =? 98 then Some 8
  else if e =? 102 then Some 12
  else if e =? 110 then Some 10
  else if e =? 114 then Some 13
  else if e =? 116 then Some 9
  else None.

Definition cons_opt (c : N) (r : option jsstring) : option jsstring :=
  match r with
  | Some s => Some (c :: s)
  | None => None
  end.

(** The text after the opening quote of a JSON string literal: its value when
    the closing quote is the last unit of the text, [None] (a [SyntaxError])
    otherwise. *)
Fixpoint parse_body (s : jsstring) : option jsstring :=
  match s with
  | [] => None
  | c :: rest =>
      if c =? dquote then
        match rest with [] => Some [] | _ :: _ => None end
      else if c =? backslash then
        match rest with
        | [] => None
        | e :: rest1 =>
            if e =? 117 then
              match rest1 with
              | h1 :: h2 :: h3 :: h4 :: rest5 =>
                  match hex4_value h1 h2 h3 h4 with
                  | Some u => cons_opt u (parse_body rest5)
                  | None => None
                  end
              | _ => None
              end
            else
              match unescape e with
              | Some u => cons_opt u (parse_body rest1)
              | None => None
              end
        end
      else if c <? 32 then None
      else cons_opt c (parse_body rest)
  end.

(** [JSON.parse(text)] for a text whose first unit is a double quote: the text
    has to be one string literal. *)
Definition parse (text : jsstring) : option jsstring :=
  match text with
  | c :: rest => if c =? dquote then parse_body rest else None
  | [] => None
  end.

End JSON.

(** ** Values, errors and the host *)

Inductive TypeAlias := AS | AN | AB | AD | AX.

Definition alias_unit (a : TypeAlias) : N :=
  match a with
  | AS => 115 | AN => 110 | AB => 98 | AD => 100 | AX => 120
  end.

Definition alias_eqb (a b : TypeAlias) : bool := alias_unit a =? alias_unit b.

(** A [Date] object: its time value in milliseconds, or an invalid date. *)
Inductive date := ValidDate (t : Z) | InvalidDate.

(** Objects a property read can reach on the prototype chain of a plain
    object: [Object.prototype] itself (through the [__proto__] getter) and the
    built-in methods, named by their property key. *)
Inductive builtin := ObjectPrototypeObject | BuiltinFunction (name : jsstring).

(** The [Error]s thrown, with the values their messages interpolate. *)
Inductive error :=
| NotPlainObject                          (* encode expects a flat plain object *)
| UnsupportedType (typeof : jsstring)     (* Unsupported type: ${t} *)
| ExpectedDate (key : jsstring)           (* Expected Date for "${key}" *)
| RangeError                              (* toISOString of an invalid date *)
| InvalidRow (row : jsstring)             (* Invalid row (expected 3 parts): ${row} *)
| EmptyKey (row : jsstring)               (* Empty key in row: ${row} *)
| UnknownAlias (alias row : jsstring)     (* Unknown type alias "${alias}" in row: ${row} *)
| InvalidBoolean (raw : jsstring)         (* Invalid boolean: ${raw} *)
| InvalidDateText (raw : jsstring)        (* Invalid date: ${raw} *)
| SyntaxError (text : jsstring)           (* JSON.parse of a malformed literal *)
| MissingKey (k : jsstring)               (* Missing required key "${k}" *)
| TypeMismatch (k : jsstring) (expected actual : TypeAlias).

(** The outcome of a call: a value, a thrown error, or the call, as a
    parser, of a member that the parser table inherits from
    [Object.prototype] (see [ALIAS_TO_PARSER]). The code goes on from that
    call: [constructor] returns the String object [Object(raw)], [toString]
    and [isPrototypeOf] return a string and [false], and the result is
    stored under the key; the other members throw a [TypeError]. These
    results are the host's and are left outside the model, which stops at
    the call. *)
Inductive outcome (A : Type) :=
| Ok (a : A)
| Throw (e : error)
| InheritedCall (member arg : jsstring).

Arguments Ok {A} a.
Arguments Throw {A} e.
Arguments InheritedCall {A} member arg.

Definition bind {A B : Type} (m : outcome A) (f : A -> outcome B) : outcome B :=
  match m with
  | Ok a => f a
  | Throw e => Throw e
  | InheritedCall m' r => InheritedCall m' r
  end.

Notation "x <- m ;; k" := (bind m (fun x => k))
  (at level 61, m at next level, right associativity).

(** What the source takes from the JavaScript host for numbers and dates,
    over the host's type of numbers. *)
Class Host (number : Type) := {
  Number_isFinite : number -> bool;        (* Number.isFinite(n) *)
  Number_toString : number -> jsstring;    (* String(n) *)
  Number_ofString : jsstring -> number;    (* Number(s) *)
  Date_toISOString : Z -> jsstring;        (* d.toISOString(), d valid *)
  Date_ofString : jsstring -> date         (* new Date(s) *)
}.

Section Codec.

Context {number : Type} {host : Host number}.

(** Runtime values: the five supported kinds, [undefined], and the built-in
    objects a read through the prototype chain returns. *)
Inductive value :=
| VUndefined
| VNull
| VString (s : jsstring)
| VNumber (n : number)
| VBoolean (b : bool)
| VDate (d : date)
| VBuiltin (b : builtin).

(** ** Objects used as records *)

(** The prototype of an object created by the literal [{}], after the
    assignments the source makes to it. *)
Inductive proto :=
| ObjectPrototype
| NullPrototype
| DateInstance (d : date)
| FunctionInstance (name : jsstring).

(** An object: its own enumerable string-keyed properties, in the order
    [Object.keys] lists them, and its prototype. A new property comes last;
    no function of the source depends on where an engine places a key that
    is an array index. *)
Record object := Obj {
  props : list (jsstring * value);
  prototype : proto
}.

(** The literal [{}]. *)
Definition empty_object : object := Obj [] ObjectPrototype.

Definition Object_prototype_keys : list jsstring :=
  map u16 ["constructor"; "__defineGetter__"; "__defineSetter__";
           "hasOwnProperty"; "__lookupGetter__"; "__lookupSetter__";
           "isPrototypeOf"; "propertyIsEnumerable"; "toString"; "valueOf";
           "__proto__"; "toLocaleString"]%string.

Definition Date_prototype_keys : list jsstring :=
  map u16 ["constructor"; "toString"; "toDateString"; "toTimeString";
           "toISOString"; "toUTCString"; "toGMTString"; "getDate"; "setDate";
           "getDay"; "getFullYear"; "setFullYear"; "getHours"; "setHours";
           "getMilliseconds"; "setMilliseconds"; "getMinutes"; "setMinutes";
           "getMonth"; "setMonth"; "getSeconds"; "setSeconds"; "getTime";
           "setTime"; "getTimezoneOffset"; "getUTCDate"; "setUTCDate";
           "getUTCDay"; "getUTCFullYear"; "setUTCFullYear"; "getUTCHours";
           "setUTCHours"; "getUTCMilliseconds"; "setUTCMilliseconds";
           "getUTCMinutes"; "setUTCMinutes"; "getUTCMonth"; "setUTCMonth";
           "getUTCSeconds"; "setUTCSeconds"; "valueOf"; "getYear"; "setYear";
           "toJSON"; "toLocaleString"; "toLocaleDateString";
           "toLocaleTimeString"]%string.

Definition Function_prototype_keys : list jsstring :=
  map u16 ["length"; "name"; "arguments"; "caller"; "constructor"; "apply";
           "bind"; "call"; "toString"]%string.

Definition proto_key : jsstring := u16 "__proto__".

Definition mem (k : jsstring) (l : list jsstring) : bool :=
  existsb (str_eqb k) l.

(** String keys found on the prototype chain. *)
Definition inherited_keys (p : proto) : list jsstring :=
  match p with
  | ObjectPrototype => Object_prototype_keys
  | NullPrototype => []
  | DateInstance _ => Date_prototype_keys ++ Object_prototype_keys
  | FunctionInstance _ => Function_prototype_keys ++ Object_prototype_keys
  end.

Fixpoint lookup (k : jsstring) (l : list (jsstring * value)) : option value :=
  match l with
  | [] => None
  | (k', v) :: l' => if str_eqb k k' then Some v else lookup k l'
  end.

(** [k in o]: own properties and the prototype chain. *)
Definition has_property (o : object) (k : jsstring) : bool :=
  match lookup k (props o) with
  | Some _ => true
  | None => mem k (inherited_keys (prototype o))
  end.

(** [Object.getPrototypeOf(o)] as a value, which the inherited [__proto__]
    getter returns. *)
Definition prototype_value (p : proto) : value :=
  match p with
  | ObjectPrototype => VBuiltin ObjectPrototypeObject
  | NullPrototype => VNull
  | DateInstance d => VDate d
  | FunctionInstance f => VBuiltin (BuiltinFunction f)
  end.

(** [o[k]]. *)
Definition get (o : object) (k : jsstring) : value :=
  match lookup k (props o) with
  | Some v => v
  | None =>
      if mem k (inherited_keys (prototype o)) then
        if str_eqb k proto_key then prototype_value (prototype o)
        else VBuiltin (BuiltinFunction k)
      else VUndefined
  end.

Fixpoint update (k : jsstring) (v : value) (l : list (jsstring * value))
  : list (jsstring * value) :=
  match l with
  | [] => [(k, v)]
  | (k', v') :: l' =>
      if str_eqb k k' then (k, v) :: l' else (k', v') :: update k v l'
  end.

(** The inherited [__proto__] setter: an object or [null] replaces the
    prototype, any other value is ignored. *)
Definition set_prototype (p : proto) (v : value) : proto :=
  match v with
  | VNull => NullPrototype
  | VDate d => DateInstance d
  | VBuiltin ObjectPrototypeObject => ObjectPrototype
  | VBuiltin (BuiltinFunction f) => FunctionInstance f
  | _ => p
  end.

(** [o[k] = v]. An own property is created or overwritten, except for the key
    [__proto__] while the setter of [Object.prototype] is on the chain. *)
Definition set (o : object) (k : jsstring) (v : value) : object :=
  match lookup k (props o) with
  | Some _ => Obj (update k v (props o)) (prototype o)
  | None =>
      if str_eqb k proto_key && mem k (inherited_keys (prototype o))
      then Obj (props o) (set_prototype (prototype o) v)
      else Obj (update k v (props o)) (prototype o)
  end.

(** ** Alias resolver *)

Definition typeof (v : value) : jsstring :=
  match v with
  | VUndefined => u16 "undefined"
  | VNull => u16 "object"
  | VString _ => u16 "string"
  | VNumber _ => u16 "number"
  | VBoolean _ => u16 "boolean"
  | VDate _ => u16 "object"
  | VBuiltin ObjectPrototypeObject => u16 "object"
  | VBuiltin (BuiltinFunction _) => u16 "function"
  end.

Definition is_null (v : value) : bool :=
  match v with VNull => true | _ => false end.

Definition instanceof_Date (v : value) : bool :=
  match v with VDate _ => true | _ => false end.

Definition inferAlias (v : value) : outcome TypeAlias :=
  if is_null v then Ok AX
  else if instanceof_Date v then Ok AD
  else
    let t := typeof v in
    if str_eqb t (u16 "string") then Ok AS
    else if str_eqb t (u16 "number") then Ok AN
    else if str_eqb t (u16 "boolean") then Ok AB
    else Throw (UnsupportedType t).

(** ** Encoder *)

(** [d.toISOString()]: a [RangeError] on an invalid date. *)
Definition toISOString (d : date) : outcome jsstring :=
  match d with
  | ValidDate t => Ok (Date_toISOString t)
  | InvalidDate => Throw RangeError
  end.

(** [ToBoolean]: a number is falsy when it is a zero or NaN, which are the
    numbers [String] prints as [0] and [NaN]. *)
Definition truthy (v : value) : bool :=
  match v with
  | VUndefined | VNull => false
  | VString s => negb (str_eqb s [])
  | VNumber n =>
      negb (str_eqb (Number_toString n) (u16 "0")
            || str_eqb (Number_toString n) (u16 "NaN"))
  | VBoolean b => b
  | VDate _ | VBuiltin _ => true
  end.

(** [JSON.stringify(v)] as a template literal interpolates it. Only the
    string case is reached from [encode], which passes the alias that
    [inferAlias] gave for the value. *)
Definition stringify_value (v : value) : jsstring :=
  match v with
  | VString s => JSON.stringify s
  | VNumber n => if Number_isFinite n then Number_toString n else u16 "null"
  | VBoolean b => if b then u16 "true" else u16 "false"
  | VNull | VDate InvalidDate => u16 "null"
  | VDate (ValidDate t) => JSON.stringify (Date_toISOString t)
  | VUndefined | VBuiltin (BuiltinFunction _) => u16 "undefined"
  | VBuiltin ObjectPrototypeObject => u16 "{}"
  end.

Definition encodeValue (alias : TypeAlias) (key : jsstring) (v : value)
  : outcome jsstring :=
  match alias with
  | AX => Ok []
  | AS => Ok (stringify_value v)
  | AN =>
      match v with
      | VNumber n => if Number_isFinite n then Ok (Number_toString n) else Ok []
      | _ => Ok []
      end
  | AB => Ok (if truthy v then u16 "true" else u16 "false")
  | AD =>
      match v with
      | VDate d => iso <- toISOString d ;; Ok (JSON.stringify iso)
      | _ => Throw (ExpectedDate key)
      end
  end.

(** The template literal [`${key};${alias};${encodedValue}`]. *)
Definition row_text (key : jsstring) (alias : TypeAlias) (encodedValue : jsstring)
  : jsstring :=
  key ++ semicolon :: alias_unit alias :: semicolon :: encodedValue.

(** [Object.keys(o)]: the own properties, in the order of [props]. *)
Definition Object_keys (o : object) : list jsstring := map fst (props o).

Definition is_undefined (v : value) : bool :=
  match v with VUndefined => true | _ => false end.

(** The body of the loop of [encode], for the keys still to visit and the
    rows pushed so far. *)
Fixpoint encode_loop (obj : object) (keys : list jsstring) (rows : list jsstring)
  : outcome (list jsstring) :=
  match keys with
  | [] => Ok rows
  | key :: keys' =>
      let v := get obj key in
      if is_undefined v then encode_loop obj keys' rows
      else
        alias <- inferAlias v ;;
        encodedValue <- encodeValue alias key v ;;
        encode_loop obj keys' (rows ++ [row_text key alias encodedValue])
  end.

(** The [rows] array at the end of the loop. *)
Definition encode_rows (obj : object) : outcome (list jsstring) :=
  encode_loop obj (sort (Object_keys obj)) [].

(** [isPlainObject]: the prototype is [Object.prototype] or [null]. *)
Definition isPlainObject (o : object) : bool :=
  match prototype o with
  | ObjectPrototype | NullPrototype => true
  | _ => false
  end.

Definition encode (obj : object) : outcome jsstring :=
  if negb (isPlainObject obj) then Throw NotPlainObject
  else rows <- encode_rows obj ;; Ok (join bar rows).

(** ** Decoder *)

(** The parsers of [ALIAS_TO_PARSER]. *)
Definition parse_s (raw : jsstring) : outcome value :=
  let trimmed := trim raw in
  if startsWith_dquote trimmed && endsWith_dquote trimmed then
    match JSON.parse trimmed with
    | Some s => Ok (VString s)
    | None => Throw (SyntaxError trimmed)
    end
  else Ok (VString trimmed).

Definition parse_n (raw : jsstring) : outcome value :=
  let trimmed := trim raw in
  if str_eqb trimmed [] then Ok VNull
  else
    let num := Number_ofString trimmed in
    if negb (Number_isFinite num) then Ok VNull
    else Ok (VNumber num).

Definition parse_b (raw : jsstring) : outcome value :=
  let v := toLowerCase (trim raw) in
  if str_eqb v (u16 "true") then Ok (VBoolean true)
  else if str_eqb v (u16 "false") then Ok (VBoolean false)
  else Throw (InvalidBoolean raw).

Definition parse_d (raw : jsstring) : outcome value :=
  let trimmed := trim raw in
  str <- (if startsWith_dquote trimmed && endsWith_dquote trimmed then
            match JSON.parse trimmed with
            | Some s => Ok s
            | None => Throw (SyntaxError trimmed)
            end
          else Ok trimmed) ;;
  match Date_ofString str with
  | InvalidDate => Throw (InvalidDateText raw)
  | ValidDate t => Ok (VDate (ValidDate t))
  end.

Definition parse_x (_raw : jsstring) : outcome value := Ok VNull.

Definition parser_of (a : TypeAlias) : jsstring -> outcome value :=
  match a with
  | AS => parse_s | AN => parse_n | AB => parse_b | AD => parse_d | AX => parse_x
  end.

(** What [ALIAS_TO_PARSER[type]] evaluates to. The table is an object
    literal, so a key that is not one of its five own keys is looked up on
    [Object.prototype]. *)
Inductive table_entry :=
| Parser (a : TypeAlias)
| Inherited (member : jsstring)
| Absent.

Definition ALIAS_TO_PARSER (type : jsstring) : table_entry :=
  if str_eqb type [alias_unit AS] then Parser AS
  else if str_eqb type [alias_unit AN] then Parser AN
  else if str_eqb type [alias_unit AB] then Parser AB
  else if str_eqb type [alias_unit AD] then Parser AD
  else if str_eqb type [alias_unit AX] then Parser AX
  else if mem type Object_prototype_keys then Inherited type
  else Absent.

(** One iteration of the loop of [decode] on [row]. An inherited member is
    truthy, so it passes the check for an unknown alias and is called. *)
Definition decode_row (result : object) (row : jsstring) : outcome object :=
  match Tokenizer.splitOutsideQuotes row semicolon with
  | [keyRaw; typeRaw; valueRaw] =>
      let key := trim keyRaw in
      let type := trim typeRaw in
      if str_eqb key [] then Throw (EmptyKey row)
      else
        match ALIAS_TO_PARSER type with
        | Absent => Throw (UnknownAlias type row)
        | Inherited member => InheritedCall member valueRaw
        | Parser a => v <- parser_of a valueRaw ;; Ok (set result key v)
        end
  | _ => Throw (InvalidRow row)
  end.

Fixpoint decode_loop (rows : list jsstring) (result : object) : outcome object :=
  match rows with
  | [] => Ok result
  | row :: rows' => r <- decode_row result row ;; decode_loop rows' r
  end.

(** [r.length > 0]. *)
Definition nonempty (r : jsstring) : bool :=
  match r with [] => false | _ :: _ => true end.

(** The [rows] of [decode]. *)
Definition decode_rows (str : jsstring) : list jsstring :=
  filter nonempty (Tokenizer.splitOutsideQuotes str bar).

Definition decode (str : jsstring) : outcome object :=
  decode_loop (decode_rows str) empty_object.

(** ** Schema validator *)

(** A schema entry: a bare alias, or [{ type, optional? }]. *)
Inductive SchemaValue :=
| Bare (a : TypeAlias)
| Described (type : TypeAlias) (optional : option bool).

(** [Boolean(v.optional)]: a missing flag is false. *)
Definition normalizeSchemaValue (v : SchemaValue) : TypeAlias * bool :=
  match v with
  | Bare a => (a, false)
  | Described t o => (t, match o with Some b => b | None => false end)
  end.

(** The loop of [decodeWithSchema] over the entries of the schema, in the
    order [Object.keys(schema)] lists them. *)
Fixpoint schema_loop (raw : object) (schema : list (jsstring * SchemaValue))
  (out : object) : outcome object :=
  match schema with
  | [] => Ok out
  | (k, sv) :: schema' =>
      let (expectedType, optional) := normalizeSchemaValue sv in
      if negb (has_property raw k) then
        if optional then schema_loop raw schema' (set out k VUndefined)
        else Throw (MissingKey k)
      else
        let val := get raw k in
        actualAlias <- inferAlias val ;;
        if negb (alias_eqb actualAlias expectedType)
        then Throw (TypeMismatch k expectedType actualAlias)
        else schema_loop raw schema' (set out k val)
  end.

Definition decodeWithSchema (str : jsstring) (schema : list (jsstring * SchemaValue))
  : outcome object :=
  raw <- decode str ;;
  schema_loop raw schema empty_object.

End Codec.

Arguments value : clear implicits.
Arguments object : clear implicits.

(** ** A reference host

    An executable instance of [Host], used to run the examples: numbers are
    the integers together with NaN and the two infinities, printed and read
    in decimal; dates are printed as [toISOString] does and read from the
    form [YYYY-MM-DDTHH:mm:ss.sssZ] or [YYYY-MM-DDTHH:mm:ssZ]. *)

Module Reference.

Inductive num := Int (z : Z) | NaN | PosInfinity | NegInfinity.

Definition isFinite (n : num) : bool :=
  match n with Int _ => true | _ => false end.

Fixpoint digits (fuel : nat) (n : N) (acc : jsstring) : jsstring :=
  match fuel with
  | O => acc
  | S fuel' =>
      let acc' := (48 + n mod 10) :: acc in
      if n / 10 =? 0 then acc' else digits fuel' (n / 10) acc'
  end.

Definition decimal (n : N) : jsstring := digits (S (N.to_nat (N.log2 n))) n [].

(** Decimal text of [n], padded with zeros on the left to [width] units. *)
Definition padded (width : nat) (n : N) : jsstring :=
  let d := decimal n in
  repeat 48 (width - List.length d) ++ d.

Definition toString (n : num) : jsstring :=
  match n with
  | Int z => if (z <? 0)%Z then 45 :: decimal (Z.abs_N z) else decimal (Z.abs_N z)
  | NaN => u16 "NaN"
  | PosInfinity => u16 "Infinity"
  | NegInfinity => u16 "-Infinity"
  end.

Definition digit (c : N) : option Z :=
  if (48 <=? c) && (c <=? 57) then Some (Z.of_N (c - 48)) else None.

Fixpoint natural (s : jsstring) (acc : Z) : option Z :=
  match s with
  | [] => Some acc
  | c :: s' =>
      match digit c with
      | Some d => natural s' (acc * 10 + d)%Z
      | None => None
      end
  end.

Definition unsigned (s : jsstring) : num :=
  if str_eqb s (u16 "Infinity") then PosInfinity
  else match s with
       | [] => NaN
       | _ :: _ => match natural s 0%Z with Some z => Int z | None => NaN end
       end.

Definition negate (n : num) : num :=
  match n with
  | Int z => Int (- z)
  | PosInfinity => NegInfinity
  | NegInfinity => PosInfinity
  | NaN => NaN
  end.

Definition ofString (s : jsstring) : num :=
  match trim s with
  | [] => Int 0
  | c :: s' =>
      if c =? 45 then negate (unsigned s')
      else if c =? 43 then unsigned s'
      else unsigned (c :: s')
  end.

Open Scope Z_scope.

(** Days since 1970-01-01 of a civil date, and back. *)
Definition days_from_civil (y m d : Z) : Z :=
  let y' := if m <=? 2 then y - 1 else y in
  let era := y' / 400 in
  let yoe := y' - era * 400 in
  let doy := (153 * (if 2 <? m then m - 3 else m + 9) + 2) / 5 + d - 1 in
  let doe := yoe * 365 + yoe / 4 - yoe / 100 + doy in
  era * 146097 + doe - 719468.

Definition civil_from_days (z : Z) : Z * Z * Z :=
  let z' := z + 719468 in
  let era := z' / 146097 in
  let doe := z' - era * 146097 in
  let yoe := (doe - doe / 1460 + doe / 36524 - doe / 146096) / 365 in
  let doy := doe - (365 * yoe + yoe / 4 - yoe / 100) in
  let mp := (5 * doy + 2) / 153 in
  let d := doy - (153 * mp + 2) / 5 + 1 in
  let m := if mp <? 10 then mp + 3 else mp - 9 in
  (if m <=? 2 then yoe + era * 400 + 1 else yoe + era * 400, m, d).

Definition year_text (y : Z) : jsstring :=
  if (0 <=? y) && (y <=? 9999) then padded 4 (Z.to_N y)
  else (if y <? 0 then 45%N else 43%N) :: padded 6 (Z.abs_N y).

Definition ISOString (t : Z) : jsstring :=
  let day := t / 86400000 in
  let ms := t mod 86400000 in
  let '(y, m, d) := civil_from_days day in
  year_text y ++ 45%N :: padded 2 (Z.to_N m) ++ 45%N :: padded 2 (Z.to_N d)
  ++ 84%N :: padded 2 (Z.to_N (ms / 3600000))
  ++ 58%N :: padded 2 (Z.to_N (ms / 60000 mod 60))
  ++ 58%N :: padded 2 (Z.to_N (ms / 1000 mod 60))
  ++ 46%N :: padded 3 (Z.to_N (ms mod 1000)) ++ [90%N].

Definition take (n : nat) (s : jsstring) : option (Z * jsstring) :=
  if (List.length s <? n)%nat then None
  else match natural (firstn n s) 0 with
       | Some z => Some (z, skipn n s)
       | None => None
       end.

Definition expect (c : N) (s : jsstring) : option jsstring :=
  match s with
  | c' :: s' => if (c' =? c)%N then Some s' else None
  | [] => None
  end.

Definition andThen {A B : Type} (m : option A) (f : A -> option B) : option B :=
  match m with Some a => f a | None => None end.

Definition fraction (s : jsstring) : option (Z * jsstring) :=
  match expect 46%N s with
  | Some s' => take 3 s'
  | None => Some (0, s)
  end.

Definition civil_time (y m d h mi sec ms : Z) : date :=
  if (1 <=? m) && (m <=? 12) && (1 <=? d) && (h <=? 23) && (mi <=? 59)
     && (sec <=? 59)
     && (let '(y', m', d') := civil_from_days (days_from_civil y m d) in
         (y' =? y) && (m' =? m) && (d' =? d))
  then ValidDate (days_from_civil y m d * 86400000
                  + h * 3600000 + mi * 60000 + sec * 1000 + ms)
  else InvalidDate.

Definition ofISOString (s : jsstring) : date :=
  let r :=
    andThen (take 4 s) (fun '(y, s) =>
    andThen (expect 45%N s) (fun s =>
    andThen (take 2 s) (fun '(m, s) =>
    andThen (expect 45%N s) (fun s =>
    andThen (take 2 s) (fun '(d, s) =>
    andThen (expect 84%N s) (fun s =>
    andThen (take 2 s) (fun '(h, s) =>
    andThen (expect 58%N s) (fun s =>
    andThen (take 2 s) (fun '(mi, s) =>
    andThen (expect 58%N s) (fun s =>
    andThen (take 2 s) (fun '(sec, s) =>
    andThen (fraction s) (fun '(ms, s) =>
    if str_eqb s [90%N] then Some (civil_time y m d h mi sec ms) else None))))))))))))
  in
  match r with Some d => d | None => InvalidDate end.

Close Scope Z_scope.

#[global] Instance host : Host num := {
  Number_isFinite := isFinite;
  Number_toString := toString;
  Number_ofString := ofString;
  Date_toISOString := ISOString;
  Date_ofString := ofISOString
}.

End Reference.

(** ** Vocabulary of the specification *)

(** The two orders on keys, as relations. *)
Definition str_le (a b : jsstring) : Prop := str_leb a b = true.
Definition codepoint_le (a b : jsstring) : Prop := codepoint_leb a b = true.

Section Vocabulary.

Context {number : Type} {host : Host number}.

Abbreviation value := (value number).
Abbreviation object := (object number).

(** A record: an object literal, whose own keys are distinct. *)
Definition record (l : list (jsstring * value)) : object := Obj l ObjectPrototype.

(** The keys for which [encode] emits a row, in the order of the rows. *)
Definition encoded_keys (obj : object) : list jsstring :=
  filter (fun k => negb (is_undefined (get obj k))) (sort (Object_keys obj)).

(** [row] is a row for [key]. *)
Definition row_for (key row : jsstring) : Prop :=
  exists alias encodedValue, row = row_text key alias encodedValue.

(** The three states that the edge-case policy names: the omission marker, a
    non-finite number, explicit null. *)
Definition edge_state (v : value) : bool :=
  match v with
  | VUndefined | VNull => true
  | VNumber n => negb (Number_isFinite n)
  | _ => false
  end.

(** The rows the policy gives for a key in one of the three states. *)
Definition edge_rows (key : jsstring) (v : value) : list jsstring :=
  match v with
  | VNull => [key ++ [semicolon; alias_unit AX; semicolon]]
  | VNumber _ => [key ++ [semicolon; alias_unit AN; semicolon]]
  | _ => []
  end.

(** [row] is a row for [key] that follows the policy for the value [v] of
    the key: exactly [key;x;] when [v] is [null], exactly [key;n;] when [v]
    is a non-finite number. *)
Definition policy_row (key : jsstring) (v : value) (row : jsstring) : Prop :=
  row_for key row
  /\ (v = VNull -> row = key ++ u16 ";x;")
  /\ (forall n, v = VNumber n -> Number_isFinite n = false ->
      row = key ++ u16 ";n;").

End Vocabulary.

Section DecoderVocabulary.

Context {number : Type} {host : Host number}.

Abbreviation value := (value number).
Abbreviation object := (object number).

(** The alias a field of a row names, if it is one of the five. *)
Definition known_alias (type : jsstring) : option TypeAlias :=
  if str_eqb type [alias_unit AS] then Some AS
  else if str_eqb type [alias_unit AN] then Some AN
  else if str_eqb type [alias_unit AB] then Some AB
  else if str_eqb type [alias_unit AD] then Some AD
  else if str_eqb type [alias_unit AX] then Some AX
  else None.

(** The text is wrapped in double quotes. *)
Definition quoted (s : jsstring) : bool :=
  startsWith_dquote s && endsWith_dquote s.








(** The trimmed key of a row of three fields. *)
Definition row_key (row : jsstring) : option jsstring :=
  match Tokenizer.splitOutsideQuotes row semicolon with
  | [keyRaw; _; _] => Some (trim keyRaw)
  | _ => None
  end.

(** The value a well-formed row gives for its key. *)
Definition row_value (row : jsstring) : outcome value :=
  match Tokenizer.splitOutsideQuotes row semicolon with
  | [_; typeRaw; valueRaw] =>
      match known_alias (trim typeRaw) with
      | Some a => parser_of a valueRaw
      | None => Throw (UnknownAlias (trim typeRaw) row)
      end
  | _ => Throw (InvalidRow row)
  end.

(** A value of one of the five supported kinds. *)
Definition supported (v : value) : bool :=
  match v with
  | VNull | VString _ | VNumber _ | VBoolean _ | VDate _ => true
  | VUndefined | VBuiltin _ => false
  end.

(** What a supported value is expected to decode to: itself, or [null] for a
    non-finite number. *)
Definition nullify (v : value) : value :=
  match v with
  | VNumber n => if Number_isFinite n then v else VNull
  | _ => v
  end.

Definition decoded (l : list (jsstring * value)) : object :=
  record (map (fun kv => (fst kv, nullify (snd kv))) l).

(** Deep equality of two objects: the same prototype and the same own
    properties, whatever their order. *)
Definition deep_equal (a b : object) : Prop :=
  prototype a = prototype b
  /\ forall k, lookup k (props a) = lookup k (props b).

(** The round trip of the record with the entries [l]. *)
Definition round_trips (l : list (jsstring * value)) : Prop :=
  exists doc o,
    encode (record l) = Ok doc /\ decode doc = Ok o /\ deep_equal o (decoded l).

(** Keys that a row carries unchanged: not empty, without white space at
    either end, other than [__proto__], and passed over by the tokenizer for
    both separators (no delimiting [;] or [|], quotes closed, no trailing
    escape). *)
Definition plain_key (k : jsstring) : bool :=
  negb (str_eqb k []) && str_eqb (trim k) k && negb (str_eqb k proto_key)
  && Tokenizer.neutral semicolon k && Tokenizer.neutral bar k.

(** The host prints and reads the value faithfully: the text of a finite
    number holds no separator, quote or escape that the tokenizer would act
    on, is not blank, and reads back as the number; a date is valid and its
    ISO text reads back as the date. *)
Definition host_faithful (v : value) : Prop :=
  match v with
  | VNumber n =>
      Number_isFinite n = true ->
      Tokenizer.quiet semicolon false false (Number_toString n) = true
      /\ Tokenizer.neutral bar (Number_toString n) = true
      /\ trim (Number_toString n) <> []
      /\ Number_ofString (trim (Number_toString n)) = n
  | VDate d =>
      exists t, d = ValidDate t
                /\ Date_ofString (Date_toISOString t) = ValidDate t
  | _ => True
  end.

(** The row pushed for [key] is one that [decode] reads back: the split on
    [|] passes over it, it is not dropped as empty, and its iteration assigns
    the expected value to the key. *)
Definition reads_back (obj : object) (key row : jsstring) : Prop :=
  Tokenizer.neutral bar row = true /\ row <> []
  /\ forall result : object,
       decode_row result row = Ok (set result key (nullify (get obj key))).

End DecoderVocabulary.

Section FurtherVocabulary.

Context {number : Type} {host : Host number}.

Abbreviation value := (value number).
Abbreviation object := (object number).

(** A value as a parser can return it: a string, a boolean, [null], a finite
    number or a valid date. *)
Definition parsed_value (v : value) : bool :=
  match v with
  | VNull | VString _ | VBoolean _ => true
  | VNumber n => Number_isFinite n
  | VDate (ValidDate _) => true
  | VDate InvalidDate | VUndefined | VBuiltin _ => false
  end.

(** The value [decodeWithSchema] gives to a schema field: what the read
    [raw[k]] returns, which is [undefined] for a field that the decoded
    record does not have. *)
Definition projected (raw : object) (schema : list (jsstring * SchemaValue))
  : list (jsstring * value) :=
  map (fun entry => (fst entry, get raw (fst entry))) schema.

(** A schema field that passes validation against the decoded record: absent
    and optional, or present with the declared alias. *)
Definition field_accepted (raw : object) (entry : jsstring * SchemaValue) : Prop :=
  if has_property raw (fst entry)
  then inferAlias (get raw (fst entry)) = Ok (fst (normalizeSchemaValue (snd entry)))
  else snd (normalizeSchemaValue (snd entry)) = true.

(** What a failing schema field throws. *)
Definition field_error (raw : object) (entry : jsstring * SchemaValue)
  (e : error) : Prop :=
  let k := fst entry in
  let expected := fst (normalizeSchemaValue (snd entry)) in
  if has_property raw k then
    match inferAlias (get raw k) with
    | Ok actual => actual <> expected /\ e = TypeMismatch k expected actual
    | Throw e' => e = e'
    | InheritedCall _ _ => False
    end
  else snd (normalizeSchemaValue (snd entry)) = false /\ e = MissingKey k.

End FurtherVocabulary.

Section EncoderVocabulary.

Context {number : Type} {host : Host number}.

Abbreviation value := (value number).
Abbreviation object := (object number).

(** A value that [encode] accepts: any value but an invalid date and a
    built-in object ([undefined] is accepted, and skipped). *)
Definition encodable (v : value) : bool :=
  match v with
  | VDate InvalidDate | VBuiltin _ => false
  | _ => true
  end.

(** What [encode] throws on a value it does not accept. *)
Definition value_error (v : value) (e : error) : Prop :=
  match v with
  | VDate InvalidDate => e = RangeError
  | VBuiltin _ => e = UnsupportedType (typeof v)
  | _ => False
  end.

(** Two values that are equal, or both non-finite numbers. *)
Definition same_or_nonfinite (v w : value) : Prop :=
  v = w
  \/ exists n m, v = VNumber n /\ w = VNumber m
                 /\ Number_isFinite n = false /\ Number_isFinite m = false.

(** The record that [decode] rebuilds from the encoding of the entries [l]:
    the keys in sorted order, each with its value, [null] for a non-finite
    number. *)
Definition canonical (l : list (jsstring * value)) : object :=
  record (map (fun k => (k, nullify (get (record l) k))) (sort (map fst l))).

End EncoderVocabulary.

(** ** The earlier codec: [encodeFlatPayload] and [decodeFlatPayload]

    The second source file holds the codec without the alias x: it has four
    aliases, refuses non-finite numbers on both sides, and does not skip
    [undefined]. Its tokenizer, its parsers for s, b and d, and its
    [isPlainObject] are the ones above, word for word. *)

(** The schema entries of the validator above, for use below where the
    earlier validator has its own. *)
Abbreviation CurrentSchemaValue := SchemaValue.

Module Legacy.

(** The four aliases. *)
Inductive alias := LS | LN | LB | LD.

Definition current (a : alias) : TypeAlias :=
  match a with LS => AS | LN => AN | LB => AB | LD => AD end.

(** The errors: those of the codec above, and the two for numbers. *)
Inductive failure :=
| Shared (e : error)
| NonFiniteNumber (key : jsstring)      (* Non-finite number for "${key}" *)
| InvalidNumber (raw : jsstring).       (* Invalid number: ${raw} *)

(** The outcome of a call: a value, a thrown error, or the call of a member
    that the parser table inherits. *)
Inductive reply (A : Type) :=
| Return (a : A)
| Raise (e : failure)
| CallsInherited (member arg : jsstring).

Arguments Return {A} a.
Arguments Raise {A} e.
Arguments CallsInherited {A} member arg.

Definition andThen {A B : Type} (m : reply A) (f : A -> reply B) : reply B :=
  match m with
  | Return a => f a
  | Raise e => Raise e
  | CallsInherited m' r => CallsInherited m' r
  end.

(** The outcome of a function shared with the codec above. *)
Definition shared {A : Type} (m : outcome A) : reply A :=
  match m with
  | Ok a => Return a
  | Throw e => Raise (Shared e)
  | InheritedCall m' r => CallsInherited m' r
  end.

Section Codec.

Context {number : Type} {host : Host number}.

Abbreviation value := (value number).
Abbreviation object := (object number).

(** The number parser: no case for an empty text, and a non-finite number
    is an error. *)
Definition parse_n (raw : jsstring) : reply value :=
  let num := Number_ofString (trim raw) in
  if negb (Number_isFinite num) then Raise (InvalidNumber raw)
  else Return (VNumber num).

Definition parser_of (a : alias) (raw : jsstring) : reply value :=
  match a with
  | LS => shared (parse_s raw)
  | LN => parse_n raw
  | LB => shared (parse_b raw)
  | LD => shared (parse_d raw)
  end.

Inductive entry :=
| Own (a : alias)
| FromPrototype (member : jsstring)
| Missing.

Definition ALIAS_TO_PARSER (type : jsstring) : entry :=
  if str_eqb type [alias_unit AS] then Own LS
  else if str_eqb type [alias_unit AN] then Own LN
  else if str_eqb type [alias_unit AB] then Own LB
  else if str_eqb type [alias_unit AD] then Own LD
  else if mem type Object_prototype_keys then FromPrototype type
  else Missing.

(** No case for [null]: its [typeof] is [object]. *)
Definition inferAlias (v : value) : reply alias :=
  if instanceof_Date v then Return LD
  else
    let t := typeof v in
    if str_eqb t (u16 "string") then Return LS
    else if str_eqb t (u16 "number") then Return LN
    else if str_eqb t (u16 "boolean") then Return LB
    else Raise (Shared (UnsupportedType t)).

Definition encodeValue (a : alias) (key : jsstring) (v : value)
  : reply jsstring :=
  match a with
  | LS => Return (stringify_value v)
  | LN =>
      match v with
      | VNumber n =>
          if Number_isFinite n then Return (Number_toString n)
          else Raise (NonFiniteNumber key)
      | _ => Raise (NonFiniteNumber key)
      end
  | LB => Return (if truthy v then u16 "true" else u16 "false")
  | LD =>
      match v with
      | VDate d =>
          andThen (shared (toISOString d))
                  (fun iso => Return (JSON.stringify iso))
      | _ => Raise (Shared (ExpectedDate key))
      end
  end.

(** The loop of [encodeFlatPayload]: every key gives a row. *)
Fixpoint encode_loop (obj : object) (keys : list jsstring) (rows : list jsstring)
  : reply (list jsstring) :=
  match keys with
  | [] => Return rows
  | key :: keys' =>
      let raw := get obj key in
      andThen (inferAlias raw) (fun a =>
      andThen (encodeValue a key raw) (fun encodedValue =>
      encode_loop obj keys' (rows ++ [row_text key (current a) encodedValue])))
  end.

Definition encodeFlatPayload (obj : object) : reply jsstring :=
  if negb (isPlainObject obj) then Raise (Shared NotPlainObject)
  else andThen (encode_loop obj (sort (Object_keys obj)) [])
            (fun rows => Return (join bar rows)).

Definition decode_row (result : object) (row : jsstring) : reply object :=
  match Tokenizer.splitOutsideQuotes row semicolon with
  | [keyRaw; typeRaw; valueRaw] =>
      let key := trim keyRaw in
      let type := trim typeRaw in
      if str_eqb key [] then Raise (Shared (EmptyKey row))
      else
        match ALIAS_TO_PARSER type with
        | Missing => Raise (Shared (UnknownAlias type row))
        | FromPrototype member => CallsInherited member valueRaw
        | Own a =>
            andThen (parser_of a valueRaw) (fun v => Return (set result key v))
        end
  | _ => Raise (Shared (InvalidRow row))
  end.

Fixpoint decode_loop (rows : list jsstring) (result : object) : reply object :=
  match rows with
  | [] => Return result
  | row :: rows' => andThen (decode_row result row) (decode_loop rows')
  end.

Definition decodeFlatPayload (str : jsstring) : reply object :=
  decode_loop (decode_rows str) empty_object.

(** The values [encodeFlatPayload] accepts: a string, a finite number, a
    boolean or a valid date. *)
Definition strict_value (v : value) : bool :=
  match v with
  | VString _ | VBoolean _ | VDate (ValidDate _) => true
  | VNumber n => Number_isFinite n
  | _ => false
  end.

(** A number row whose text is blank, which this decoder reads as
    [Number('')] and the decoder above as [null]. *)
Definition blank_number_row (row : jsstring) : bool :=
  match Tokenizer.splitOutsideQuotes row semicolon with
  | [_; typeRaw; valueRaw] =>
      str_eqb (trim typeRaw) [alias_unit AN] && str_eqb (trim valueRaw) []
  | _ => false
  end.

(** A schema entry of the earlier validator: a bare alias, or
    [{ type, optional? }]. *)
Inductive SchemaValue :=
| OfAlias (a : alias)
| OfRecord (type : alias) (optional : option bool).

Definition normalizeSchemaValue (v : SchemaValue) : alias * bool :=
  match v with
  | OfAlias a => (a, false)
  | OfRecord t o => (t, match o with Some b => b | None => false end)
  end.

(** [actualAlias !== expectedType] compares the two one-letter strings. *)
Definition alias_eqb (a b : alias) : bool :=
  alias_unit (current a) =? alias_unit (current b).

(** The loop of [decodeFlatPayloadWithSchema] over the entries of the
    schema. *)
Fixpoint schema_loop (raw : object) (schema : list (jsstring * SchemaValue))
  (out : object) : reply object :=
  match schema with
  | [] => Return out
  | (k, sv) :: schema' =>
      let (expectedType, optional) := normalizeSchemaValue sv in
      if negb (has_property raw k) then
        if optional then schema_loop raw schema' (set out k VUndefined)
        else Raise (Shared (MissingKey k))
      else
        let val := get raw k in
        andThen (inferAlias val) (fun actualAlias =>
        if negb (alias_eqb actualAlias expectedType)
        then Raise (Shared (TypeMismatch k (current expectedType)
                                         (current actualAlias)))
        else schema_loop raw schema' (set out k val))
  end.

Definition decodeFlatPayloadWithSchema (str : jsstring)
  (schema : list (jsstring * SchemaValue)) : reply object :=
  andThen (decodeFlatPayload str) (fun raw =>
  schema_loop raw schema empty_object).

(** The same schema, written for the validator above. *)
Definition current_schema (schema : list (jsstring * SchemaValue))
  : list (jsstring * CurrentSchemaValue) :=
  map (fun entry =>
         (fst entry,
          match snd entry with
          | OfAlias a => Bare (current a)
          | OfRecord t o => Described (current t) o
          end)) schema.

End Codec.

End Legacy.

(** * Properties *)

(** ** Strings *)

Lemma str_eqb_spec (a b : jsstring) : reflect (a = b) (str_eqb a b).
Proof.
  revert b; induction a as [|x a IH]; intros [|y b]; simpl;
    try (constructor; congruence).
  destruct (N.eqb_spec x y) as [->|Hxy]; simpl.
  - destruct (IH b) as [->|Hab]; constructor; congruence.
  - constructor; congruence.
Qed.

Lemma str_eqb_refl (a : jsstring) : str_eqb a a = true.
Proof. destruct (str_eqb_spec a a); congruence. Qed.

Lemma str_eqb_eq (a b : jsstring) : str_eqb a b = true <-> a = b.
Proof. destruct (str_eqb_spec a b); split; congruence. Qed.

Lemma str_eqb_neq (a b : jsstring) : str_eqb a b = false <-> a <> b.
Proof. destruct (str_eqb_spec a b); split; congruence. Qed.

(** ** The tokenizer *)

Section TokenizerFacts.

Import Tokenizer.

Variable sepChar : N.

Lemma fields_nonempty inQ esc input : fields sepChar inQ esc input <> [].
Proof.
  destruct input as [|ch rest]; simpl; [discriminate|].
  repeat match goal with
         | |- context [if ?b then _ else _] => destruct b
         end;
    try discriminate;
    unfold push_head;
    match goal with |- context [match ?l with _ => _ end] => destruct l end;
    discriminate.
Qed.

Lemma glue_push_head b ch l :
  l <> [] -> glue [b ++ [ch]] l = glue [b] (push_head ch l).
Proof.
  destruct l as [|f r]; [congruence|intros _]; simpl.
  now rewrite <- app_assoc.
Qed.

(** The loop, started in any state, builds the fields of [fields] after the
    ones it already closed. *)
Lemma fold_step_fields input : forall st,
  out (fold_left (step sepChar) input st)
  ++ [buf (fold_left (step sepChar) input st)] =
  out st ++ glue [buf st] (fields sepChar (inQuotes st) (escaped st) input).
Proof.
  induction input as [|ch rest IH]; intros [o b q e]; cbn [fold_left].
  - simpl. now rewrite app_nil_r.
  - rewrite IH. unfold step; cbn [out buf inQuotes escaped fields].
    destruct e; [|destruct (ch =? backslash); [|destruct (ch =? dquote);
      [|destruct (negb q && (ch =? sepChar)) eqn:Hs]]];
      cbn [out buf inQuotes escaped];
      try (rewrite glue_push_head by apply fields_nonempty; reflexivity).
    rewrite <- app_assoc.
    destruct (fields sepChar q false rest) eqn:Hf;
      [now apply fields_nonempty in Hf|].
    simpl. now rewrite app_nil_r.
Qed.

Lemma splitOutsideQuotes_fields input :
  splitOutsideQuotes input sepChar = fields sepChar false false input.
Proof.
  unfold splitOutsideQuotes.
  pose proof (fold_step_fields input start) as H; simpl in H.
  rewrite H.
  destruct (fields sepChar false false input) eqn:Hf;
    [now apply fields_nonempty in Hf|reflexivity].
Qed.

Lemma join_push_head ch l :
  l <> [] -> join sepChar (push_head ch l) = ch :: join sepChar l.
Proof.
  destruct l as [|f [|g r]]; [congruence| |]; reflexivity.
Qed.

Lemma join_fields inQ esc input :
  join sepChar (fields sepChar inQ esc input) = input.
Proof.
  revert inQ esc; induction input as [|ch rest IH]; intros inQ esc;
    [reflexivity|].
  cbn [fields].
  destruct esc; [|destruct (ch =? backslash); [|destruct (ch =? dquote);
    [|destruct (negb inQ && (ch =? sepChar)) eqn:Hs]]];
    try (rewrite join_push_head by apply fields_nonempty; now rewrite IH).
  apply andb_true_iff in Hs as [_ Hs]. apply N.eqb_eq in Hs; subst ch.
  destruct (fields sepChar inQ false rest) eqn:Hf;
    [now apply fields_nonempty in Hf|].
  rewrite <- (IH inQ false), Hf. reflexivity.
Qed.

Lemma length_push_head ch l :
  l <> [] -> List.length (push_head ch l) = List.length l.
Proof. destruct l; [congruence|reflexivity]. Qed.

Lemma length_fields inQ esc input :
  sepChar <> dquote -> sepChar <> backslash ->
  List.length (fields sepChar inQ esc input)
  = S (effective_separators sepChar inQ esc input).
Proof.
  intros Hq Hb. revert inQ esc; induction input as [|ch rest IH];
    intros inQ esc; [reflexivity|].
  cbn [fields effective_separators].
  destruct esc; cbn [negb andb].
  - rewrite length_push_head by apply fields_nonempty.
    rewrite andb_false_r. simpl. apply IH.
  - destruct (N.eqb_spec ch backslash) as [->|Hcb].
    + rewrite length_push_head by apply fields_nonempty.
      destruct (N.eqb_spec backslash sepChar); [congruence|].
      simpl. apply IH.
    + destruct (N.eqb_spec ch dquote) as [->|Hcq].
      * rewrite length_push_head by apply fields_nonempty.
        destruct (N.eqb_spec dquote sepChar); [congruence|].
        simpl. apply IH.
      * destruct inQ; cbn [negb andb].
        -- rewrite length_push_head by apply fields_nonempty.
           rewrite andb_false_r. simpl. apply IH.
        -- rewrite andb_true_r.
           destruct (ch =? sepChar); simpl; [now rewrite IH|].
           rewrite length_push_head by apply fields_nonempty. apply IH.
Qed.

Lemma glue_cons x l r : l <> [] -> glue (x :: l) r = x :: glue l r.
Proof.
  destruct l as [|y l]; [congruence|intros _].
  destruct r as [|f r']; reflexivity.
Qed.

Lemma glue_push_head_l ch l r :
  l <> [] -> glue (push_head ch l) r = push_head ch (glue l r).
Proof.
  destruct l as [|f [|g l]]; [congruence| |]; intros _;
    destruct r as [|h r']; reflexivity.
Qed.

Lemma glue_nonempty l r : l <> [] -> glue l r <> [].
Proof.
  destruct r as [|f r']; simpl; [easy|].
  intros _ H. apply app_eq_nil in H as [_ H]. discriminate.
Qed.

(** Reading [a ++ b] is reading [a], then [b] with the flags [a] leaves. *)
Lemma fields_app a b : forall inQ esc,
  fields sepChar inQ esc (a ++ b)
  = glue (fields sepChar inQ esc a)
         (fields sepChar (fst (flags inQ esc a)) (snd (flags inQ esc a)) b).
Proof.
  induction a as [|ch rest IH]; intros inQ esc.
  - simpl. destruct (fields sepChar inQ esc b) eqn:Hf;
      [now apply fields_nonempty in Hf|reflexivity].
  - cbn [app fields flags].
    destruct esc; [|destruct (ch =? backslash); [|destruct (ch =? dquote);
      [|destruct (negb inQ && (ch =? sepChar))]]];
      rewrite IH;
      try (rewrite glue_push_head_l by apply fields_nonempty; reflexivity).
    now rewrite glue_cons by apply fields_nonempty.
Qed.

Lemma quiet_fields input : forall inQ esc,
  quiet sepChar inQ esc input = true -> fields sepChar inQ esc input = [input].
Proof.
  induction input as [|ch rest IH]; intros inQ esc; [reflexivity|].
  cbn [quiet fields].
  destruct esc; [|destruct (ch =? backslash); [|destruct (ch =? dquote);
    [|destruct (negb inQ && (ch =? sepChar))]]];
    try discriminate; intros H; now rewrite IH.
Qed.

Lemma unterminated_quiet input : forall esc,
  unterminated esc input = true -> quiet sepChar true esc input = true.
Proof.
  induction input as [|ch rest IH]; intros esc; [reflexivity|].
  cbn [unterminated quiet].
  destruct esc; [|destruct (ch =? backslash); [|destruct (ch =? dquote)]];
    try discriminate; simpl; apply IH.
Qed.

Lemma unterminated_flags input : forall esc,
  unterminated esc input = true -> fst (flags true esc input) = true.
Proof.
  induction input as [|ch rest IH]; intros esc; [reflexivity|].
  cbn [unterminated flags].
  destruct esc; [|destruct (ch =? backslash); [|destruct (ch =? dquote)]];
    try discriminate; apply IH.
Qed.

End TokenizerFacts.

(** C9. For every input [s] and separator [c], [splitOutsideQuotes s c] is a
    non-empty list of fields, and joining the fields with [c] gives back [s]:
    the tokenizer removes the delimiting separators and nothing else, and
    adds nothing. *)
Theorem splitOutsideQuotes_join (s : jsstring) (c : N) :
  Tokenizer.splitOutsideQuotes s c <> []
  /\ join c (Tokenizer.splitOutsideQuotes s c) = s.
Proof.
  rewrite splitOutsideQuotes_fields. split.
  - apply fields_nonempty.
  - apply join_fields.
Qed.

(** C8, as stated, fails when the separator is the backslash or the double
    quote. The one-unit input made of a backslash holds one occurrence of the
    separator, which is unescaped and outside the quote state, and yet is
    split into one field, not two; the same goes for the double quote. *)
Lemma splitOutsideQuotes_count_special_separator :
  Tokenizer.splitOutsideQuotes [backslash] backslash = [[backslash]]
  /\ Tokenizer.effective_separators backslash false false [backslash] = 1%nat
  /\ List.length (Tokenizer.splitOutsideQuotes [backslash] backslash)
     <> S (Tokenizer.effective_separators backslash false false [backslash])
  /\ List.length (Tokenizer.splitOutsideQuotes [dquote] dquote)
     <> S (Tokenizer.effective_separators dquote false false [dquote]).
Proof. repeat split; vm_compute; discriminate. Qed.

(** C8, amended. For every input and every separator other than the double
    quote and the backslash, [splitOutsideQuotes] returns one field more than
    there are separator occurrences that are unescaped and outside the quote
    state, empty fields included. It is a total function. For every
    separator, when a double quote opens a quoted span that is never closed,
    the rest of the input lies in the field in progress: no separator after
    the opening quote delimits. *)
Theorem splitOutsideQuotes_count (input : jsstring) (sepChar : N) :
  (sepChar <> dquote -> sepChar <> backslash ->
   List.length (Tokenizer.splitOutsideQuotes input sepChar)
   = S (Tokenizer.effective_separators sepChar false false input))
  /\ (forall a b,
        input = a ++ dquote :: b ->
        Tokenizer.flags false false a = (false, false) ->
        Tokenizer.unterminated false b = true ->
        Tokenizer.splitOutsideQuotes input sepChar
        = removelast (Tokenizer.splitOutsideQuotes a sepChar)
          ++ [last (Tokenizer.splitOutsideQuotes a sepChar) [] ++ dquote :: b]).
Proof.
  split.
  - intros Hq Hb. rewrite splitOutsideQuotes_fields. now apply length_fields.
  - intros a b -> Ha Hb. rewrite !splitOutsideQuotes_fields, fields_app, Ha.
    cbn [fst snd].
    assert (Hf : Tokenizer.fields sepChar false false (dquote :: b)
                 = [dquote :: b]).
    { apply quiet_fields. simpl. now apply unterminated_quiet. }
    rewrite Hf. reflexivity.
Qed.

Lemma splitOutsideQuotes_count_witness :
  List.length (Tokenizer.splitOutsideQuotes
                 (u16 "a;;b|c;" ++ dquote :: u16 "x;y") semicolon) = 4%nat
  /\ Tokenizer.splitOutsideQuotes
       (u16 "a;;b|c;" ++ dquote :: u16 "x;y") semicolon
     = [u16 "a"; []; u16 "b|c"; dquote :: u16 "x;y"].
Proof.
  pose proof (splitOutsideQuotes_count
                (u16 "a;;b|c;" ++ dquote :: u16 "x;y") semicolon) as [Hn Hu].
  split.
  - rewrite Hn; [reflexivity | discriminate | discriminate].
  - rewrite (Hu (u16 "a;;b|c;") (u16 "x;y")); reflexivity.
Defined.

(** ** The default sort *)

Lemma str_leb_refl a : str_leb a a = true.
Proof.
  induction a as [|x a IH]; [reflexivity|].
  simpl. now rewrite N.ltb_irrefl.
Qed.

Lemma str_leb_total a : forall b, str_leb a b = true \/ str_leb b a = true.
Proof.
  induction a as [|x a IH]; intros [|y b]; simpl; auto.
  destruct (N.ltb_spec x y), (N.ltb_spec y x); auto; lia.
Qed.

Lemma str_leb_antisym a : forall b,
  str_leb a b = true -> str_leb b a = true -> a = b.
Proof.
  induction a as [|x a IH]; intros [|y b]; simpl; try easy.
  destruct (N.ltb_spec x y), (N.ltb_spec y x); try easy; try lia.
  intros Hab Hba. f_equal; [lia|auto].
Qed.

Lemma str_leb_trans a : forall b c,
  str_leb a b = true -> str_leb b c = true -> str_leb a c = true.
Proof.
  induction a as [|x a IH]; intros [|y b] [|z c]; simpl; try easy.
  destruct (N.ltb_spec x y), (N.ltb_spec y z), (N.ltb_spec x z),
    (N.ltb_spec y x), (N.ltb_spec z y), (N.ltb_spec z x);
    try easy; try lia.
  apply IH.
Qed.

Lemma insert_perm k l : Permutation (k :: l) (insert k l).
Proof.
  induction l as [|h t IH]; simpl; [apply Permutation_refl|].
  destruct (str_leb k h); [apply Permutation_refl|].
  eapply perm_trans; [apply perm_swap|]. now apply perm_skip.
Qed.

Lemma sort_perm l : Permutation l (sort l).
Proof.
  induction l as [|k l IH]; simpl; [constructor|].
  eapply perm_trans; [|apply insert_perm]. now apply perm_skip.
Qed.

Lemma insert_sorted k l :
  StronglySorted str_le l -> StronglySorted str_le (insert k l).
Proof.
  induction 1 as [|h t Hs IH Hall]; simpl.
  - repeat constructor.
  - destruct (str_leb k h) eqn:Hk.
    + constructor; [now constructor|].
      constructor; [exact Hk|].
      eapply Forall_impl; [|exact Hall].
      intros c Hc. now apply (str_leb_trans k h c).
    + constructor; [exact IH|].
      apply (Permutation_Forall (insert_perm k t)).
      constructor; [|exact Hall].
      destruct (str_leb_total k h) as [H|H]; [congruence|exact H].
Qed.

Lemma sort_sorted l : StronglySorted str_le (sort l).
Proof.
  induction l as [|k l IH]; simpl; [constructor|now apply insert_sorted].
Qed.

(** A list has one sorted arrangement: the result of [sort] does not depend
    on the algorithm, nor on the order of its input. *)
Lemma sorted_perm_unique l1 : forall l2,
  StronglySorted str_le l1 -> StronglySorted str_le l2 ->
  Permutation l1 l2 -> l1 = l2.
Proof.
  induction l1 as [|x l1 IH]; intros l2 H1 H2 Hp.
  - now apply Permutation_nil in Hp.
  - destruct l2 as [|y l2];
      [now apply Permutation_sym, Permutation_nil in Hp|].
    inversion H1 as [|? ? Hs1 Ha1]; inversion H2 as [|? ? Hs2 Ha2]; subst.
    assert (Hxy : x = y).
    { assert (Hx : In x (y :: l2))
        by (eapply Permutation_in; [exact Hp|now left]).
      assert (Hy : In y (x :: l1))
        by (eapply Permutation_in; [apply Permutation_sym; exact Hp|now left]).
      destruct Hx as [Hx|Hx]; [auto|].
      destruct Hy as [Hy|Hy]; [auto|].
      rewrite Forall_forall in Ha1, Ha2.
      apply str_leb_antisym; [now apply Ha1|now apply Ha2]. }
    subst y. f_equal. apply IH; auto.
    now apply Permutation_cons_inv in Hp.
Qed.

Lemma sort_permutation_eq l1 l2 : Permutation l1 l2 -> sort l1 = sort l2.
Proof.
  intros Hp. apply sorted_perm_unique; try apply sort_sorted.
  eapply perm_trans; [apply Permutation_sym, sort_perm|].
  eapply perm_trans; [exact Hp|apply sort_perm].
Qed.

(** ** Own properties *)

Section ObjectFacts.

Context {number : Type} {host : Host number}.

Abbreviation value := (value number).
Abbreviation object := (object number).

Lemma lookup_in k v (l : list (jsstring * value)) :
  NoDup (map fst l) -> In (k, v) l -> lookup k l = Some v.
Proof.
  induction l as [|[k' v'] l IH]; simpl; [easy|].
  intros Hnd [Heq|Hin].
  - injection Heq as -> ->. now rewrite str_eqb_refl.
  - inversion Hnd as [|? ? Hk Hnd']; subst.
    destruct (str_eqb_spec k k') as [->|_]; [|auto].
    exfalso. apply Hk. now apply (in_map fst) in Hin.
Qed.

Lemma lookup_some k v (l : list (jsstring * value)) : lookup k l = Some v -> In (k, v) l.
Proof.
  induction l as [|[k' v'] l IH]; simpl; [easy|].
  destruct (str_eqb_spec k k') as [->|_].
  - intros [= ->]. now left.
  - intros H. right. auto.
Qed.

Lemma lookup_none k (l : list (jsstring * value)) : lookup k l = None <-> ~ In k (map fst l).
Proof.
  induction l as [|[k' v'] l IH]; simpl; [tauto|].
  destruct (str_eqb_spec k k') as [->|Hne].
  - split; [discriminate|]. intros H. exfalso. apply H. now left.
  - rewrite IH. split.
    + intros H [Heq|Hin]; [congruence|auto].
    + intros H Hin. apply H. now right.
Qed.

Lemma lookup_perm k (l l' : list (jsstring * value)) :
  NoDup (map fst l) -> Permutation l l' -> lookup k l = lookup k l'.
Proof.
  intros Hnd Hp.
  assert (Hnd' : NoDup (map fst l'))
    by (eapply Permutation_NoDup; [apply Permutation_map; exact Hp|exact Hnd]).
  destruct (lookup k l) as [v|] eqn:Hl.
  - symmetry. apply lookup_in; [exact Hnd'|].
    eapply Permutation_in; [exact Hp|]. now apply lookup_some.
  - symmetry. apply lookup_none. apply lookup_none in Hl.
    intros Hin. apply Hl.
    eapply Permutation_in; [apply Permutation_sym, Permutation_map; exact Hp|].
    exact Hin.
Qed.

Lemma get_perm k (l l' : list (jsstring * value)) p :
  NoDup (map fst l) -> Permutation l l' -> get (Obj l p) k = get (Obj l' p) k.
Proof.
  intros Hnd Hp. unfold get; simpl. now rewrite (lookup_perm k Hnd Hp).
Qed.

Lemma get_own k v (l : list (jsstring * value)) p :
  NoDup (map fst l) -> In (k, v) l -> get (Obj l p) k = v.
Proof.
  intros Hnd Hin. unfold get; simpl. now erewrite lookup_in by eassumption.
Qed.

End ObjectFacts.

(** ** The encoder *)

Section EncoderFacts.

Context {number : Type} {host : Host number}.

Abbreviation value := (value number).
Abbreviation object := (object number).

Lemma encode_loop_ext (o o' : object) keys : forall rows,
  (forall k, In k keys -> get o k = get o' k) ->
  encode_loop o keys rows = encode_loop o' keys rows.
Proof.
  induction keys as [|key keys IH]; intros rows Hget; [reflexivity|].
  cbn [encode_loop]. rewrite <- (Hget key) by now left.
  destruct (is_undefined (get o key)).
  - apply IH. intros k Hk. apply Hget. now right.
  - destruct (inferAlias (get o key)) as [alias| |]; simpl; try reflexivity.
    destruct (encodeValue alias key (get o key)); simpl; try reflexivity.
    apply IH. intros k Hk. apply Hget. now right.
Qed.

(** The rows pushed by the loop come after the rows it started with. *)
Lemma encode_loop_acc (obj : object) keys : forall rows,
  encode_loop obj keys rows
  = (rs <- encode_loop obj keys [] ;; Ok (rows ++ rs)).
Proof.
  induction keys as [|key keys IH]; intros rows; cbn [encode_loop].
  - simpl. now rewrite app_nil_r.
  - destruct (is_undefined (get obj key)); [apply IH|].
    destruct (inferAlias (get obj key)) as [alias| |]; simpl; try reflexivity.
    destruct (encodeValue alias key (get obj key)) as [raw| |];
      simpl; try reflexivity.
    rewrite IH. rewrite (IH [_]).
    destruct (encode_loop obj keys []); simpl; try reflexivity.
    now rewrite <- app_assoc.
Qed.

Lemma encode_loop_rows (obj : object) keys : forall rows,
  encode_loop obj keys [] = Ok rows ->
  Forall2 row_for
    (filter (fun k => negb (is_undefined (get obj k))) keys) rows.
Proof.
  induction keys as [|key keys IH]; intros rows; cbn [encode_loop filter].
  - intros [= <-]. constructor.
  - destruct (is_undefined (get obj key)); simpl; [apply IH|].
    destruct (inferAlias (get obj key)) as [alias| |]; simpl; try easy.
    destruct (encodeValue alias key (get obj key)) as [raw| |];
      simpl; try easy.
    rewrite encode_loop_acc.
    destruct (encode_loop obj keys []) as [rs| |]; simpl; try easy.
    intros [= <-]. constructor; [now exists alias, raw|now apply IH].
Qed.

Lemma encode_loop_step (obj : object) key keys rows alias raw :
  is_undefined (get obj key) = false ->
  inferAlias (get obj key) = Ok alias ->
  encodeValue alias key (get obj key) = Ok raw ->
  encode_loop obj (key :: keys) rows
  = encode_loop obj keys (rows ++ [row_text key alias raw]).
Proof.
  intros Hu Ha Hr. cbn [encode_loop]. now rewrite Hu, Ha; simpl; rewrite Hr.
Qed.

Lemma filter_sorted (f : jsstring -> bool) l :
  StronglySorted str_le l -> StronglySorted str_le (filter f l).
Proof.
  induction 1 as [|h t Hs IH Hall]; simpl; [constructor|].
  destruct (f h); [|exact IH].
  constructor; [exact IH|].
  apply Forall_forall. intros x Hx. apply filter_In in Hx as [Hx _].
  rewrite Forall_forall in Hall. now apply Hall.
Qed.

End EncoderFacts.

Section EncoderProperties.

Context {number : Type} {host : Host number}.

Abbreviation value := (value number).
Abbreviation object := (object number).

(** C3, amended. Two records with the same key-to-value pairs, inserted in
    different orders, have the same encoding. The keys of the rows, in the
    order of the rows, are sorted in the lexicographic order of their UTF-16
    code units (the order of the default sort), and each row is a row for its
    key. *)
Theorem encode_deterministic (l l' : list (jsstring * value)) :
  NoDup (map fst l) -> Permutation l l' ->
  encode (record l) = encode (record l')
  /\ StronglySorted str_le (encoded_keys (record l))
  /\ (forall rows, encode_rows (record l) = Ok rows ->
      Forall2 row_for (encoded_keys (record l)) rows).
Proof.
  intros Hnd Hp. split; [|split].
  - unfold encode, encode_rows, record, Object_keys; simpl.
    rewrite (sort_permutation_eq (Permutation_map fst Hp)).
    rewrite (encode_loop_ext (Obj l ObjectPrototype) (Obj l' ObjectPrototype)
               (sort (map fst l')) []); [reflexivity|].
    intros k _. now apply get_perm.
  - apply filter_sorted, sort_sorted.
  - intros rows. apply encode_loop_rows.
Qed.

Lemma encode_loop_edge (obj : object) keys : forall rows,
  (forall k, In k keys -> edge_state (get obj k) = true) ->
  encode_loop obj keys rows
  = Ok (rows ++ flat_map (fun k => edge_rows k (get obj k)) keys).
Proof.
  induction keys as [|key keys IH]; intros rows Hedge; cbn [encode_loop flat_map].
  - now rewrite app_nil_r.
  - assert (Hk := Hedge key (or_introl eq_refl)).
    assert (Hks : forall k, In k keys -> edge_state (get obj k) = true)
      by (intros k Hin; apply Hedge; now right).
    destruct (get obj key) as [| |s|n|b|d|b]; simpl in Hk; try discriminate.
    + simpl. now apply IH.
    + simpl. rewrite IH by assumption. now rewrite <- app_assoc.
    + simpl. apply negb_true_iff in Hk. rewrite Hk. simpl.
      rewrite IH by assumption. now rewrite <- app_assoc.
Qed.

(** C4. The literal scenario: on a host that prints the number 27 as [27] and
    the date as [2025-12-29T10:00:00.000Z], and for which NaN is not finite,
    [encode] returns exactly the documented string. *)
Theorem encode_literal_scenario (n27 nan : number) (t : Z) :
  Number_isFinite n27 = true ->
  Number_toString n27 = u16 "27" ->
  Number_isFinite nan = false ->
  Date_toISOString t = u16 "2025-12-29T10:00:00.000Z" ->
  encode (record [(u16 "name", VString (u16 "Yanto Kopling"));
                  (u16 "age", VNumber n27);
                  (u16 "score", VNumber nan);
                  (u16 "active", VBoolean true);
                  (u16 "createdAt", VDate (ValidDate t));
                  (u16 "deletedAt", VNull)])
  = Ok (u16 "active;b;true|age;n;27|createdAt;d;"
        ++ dquote :: u16 "2025-12-29T10:00:00.000Z"
        ++ dquote :: u16 "|deletedAt;x;|name;s;"
        ++ dquote :: u16 "Yanto Kopling"
        ++ dquote :: u16 "|score;n;").
Proof.
  intros Hfin Hstr Hnan Hiso.
  unfold encode, encode_rows.
  replace (sort (Object_keys _))
    with (map u16 ["active"; "age"; "createdAt"; "deletedAt"; "name";
                   "score"]%string)
    by (vm_compute; reflexivity).
  cbn [isPlainObject record prototype negb map].
  rewrite (@encode_loop_step _ _ _ (u16 "active") _ _ AB (u16 "true"))
    by (vm_compute; reflexivity).
  rewrite (@encode_loop_step _ _ _ (u16 "age") _ _ AN (u16 "27"));
    [ | vm_compute; reflexivity | vm_compute; reflexivity | ].
  2:{ change (get _ _) with (VNumber n27). cbn [encodeValue].
      rewrite Hfin, Hstr. reflexivity. }
  rewrite (@encode_loop_step _ _ _ (u16 "createdAt") _ _ AD
             (JSON.stringify (u16 "2025-12-29T10:00:00.000Z")));
    [ | vm_compute; reflexivity | vm_compute; reflexivity | ].
  2:{ change (get _ _) with (VDate (ValidDate t) : value).
      cbn [encodeValue toISOString bind]. rewrite Hiso. reflexivity. }
  rewrite (@encode_loop_step _ _ _ (u16 "deletedAt") _ _ AX [])
    by (vm_compute; reflexivity).
  rewrite (@encode_loop_step _ _ _ (u16 "name") _ _ AS
             (JSON.stringify (u16 "Yanto Kopling")))
    by (vm_compute; reflexivity).
  rewrite (@encode_loop_step _ _ _ (u16 "score") _ _ AN []);
    [ | vm_compute; reflexivity | vm_compute; reflexivity | ].
  2:{ change (get _ _) with (VNumber nan). cbn [encodeValue].
      rewrite Hnan. reflexivity. }
  vm_compute. reflexivity.
Qed.

End EncoderProperties.

(** C3, as stated, fails for keys with surrogate pairs: the key
    U+1F600 (units D83D DE00) is put before the key U+FF5E, against the order
    of code points. *)
Lemma encode_rows_not_in_codepoint_order :
  let obj := record [([65374], VBoolean true); ([55357; 56832], VBoolean true)] in
  encode obj = Ok ([55357; 56832] ++ u16 ";b;true|" ++ [65374] ++ u16 ";b;true")
  /\ encoded_keys obj = [[55357; 56832]; [65374]]
  /\ ~ StronglySorted codepoint_le (encoded_keys obj).
Proof.
  repeat split; try reflexivity.
  intros H. inversion H as [|? ? _ Hall]; subst.
  inversion Hall as [|? ? Hle _]; subst.
  vm_compute in Hle. discriminate.
Qed.

Lemma encode_deterministic_witness :
  encode (record [(u16 "b", VNull); (u16 "a", VBoolean true)])
  = encode (record [(u16 "a", VBoolean true); (u16 "b", VNull)]).
Proof.
  refine (proj1 (@encode_deterministic _ Reference.host
                   [(u16 "b", VNull); (u16 "a", VBoolean true)]
                   [(u16 "a", VBoolean true); (u16 "b", VNull)] _ _)).
  - repeat constructor; simpl; intuition discriminate.
  - apply perm_swap.
Defined.

Lemma encode_literal_scenario_witness :
  encode (record [(u16 "name", VString (u16 "Yanto Kopling"));
                  (u16 "age", VNumber (Reference.Int 27));
                  (u16 "score", VNumber Reference.NaN);
                  (u16 "active", VBoolean true);
                  (u16 "createdAt", VDate (ValidDate 1767002400000));
                  (u16 "deletedAt", VNull)])
  = Ok (u16 "active;b;true|age;n;27|createdAt;d;"
        ++ dquote :: u16 "2025-12-29T10:00:00.000Z"
        ++ dquote :: u16 "|deletedAt;x;|name;s;"
        ++ dquote :: u16 "Yanto Kopling"
        ++ dquote :: u16 "|score;n;").
Proof.
  apply (@encode_literal_scenario _ Reference.host
           (Reference.Int 27) Reference.NaN 1767002400000);
    vm_compute; reflexivity.
Defined.

(** ** The decoder and the schema validator on the prototype chain *)

Section PrototypeChain.

Context {number : Type} {host : Host number}.

Abbreviation value := (value number).
Abbreviation object := (object number).

(** C2. The code throws where the specification promises a null field: a non-finite
    number is encoded as [score;n;], decoded to [null], and [inferAlias]
    gives the alias x for [null], which the schema entry ['n'] rejects. *)
Theorem decodeWithSchema_nonfinite_number (n : number) :
  Number_isFinite n = false ->
  (doc <- encode (record [(u16 "score", VNumber n)]) ;;
   decodeWithSchema doc [(u16 "score", Bare AN)])
  = Throw (TypeMismatch (u16 "score") AN AX).
Proof.
  intros Hn. unfold encode, encode_rows.
  replace (sort (Object_keys _)) with [u16 "score"] by (vm_compute; reflexivity).
  cbn [isPlainObject record prototype negb].
  rewrite (@encode_loop_step _ _ _ (u16 "score") _ _ AN []);
    [ | vm_compute; reflexivity | vm_compute; reflexivity | ].
  - vm_compute. reflexivity.
  - change (get _ _) with (VNumber n). cbn [encodeValue]. now rewrite Hn.
Qed.

(** C7. The code throws an unsupported-type error for a schema field named
    as a member of [Object.prototype] that the document does not hold,
    whether the field is optional or required: [k in raw] finds the inherited
    member, and [raw[k]] is a function. *)
Theorem decodeWithSchema_inherited_field :
  decodeWithSchema [] [(u16 "toString", Described AS (Some true))]
  = Throw (UnsupportedType (u16 "function"))
  /\ decodeWithSchema [] [(u16 "toString", Bare AS)]
     = Throw (UnsupportedType (u16 "function")).
Proof. split; vm_compute; reflexivity. Qed.

(** C10. Two well-formed rows with the key [__proto__] are decoded without
    error, but the result holds no property for the key: the assignment runs
    the inherited setter, which ignores a string. Reading the key gives
    [Object.prototype], not the value of the last row. *)
Theorem decode_duplicate_proto_key :
  let doc := u16 "__proto__;s;" ++ dquote :: u16 "a" ++ dquote
             :: u16 "|__proto__;s;" ++ dquote :: u16 "b" ++ [dquote] in
  decode doc = Ok empty_object
  /\ get (empty_object : object) proto_key = VBuiltin ObjectPrototypeObject.
Proof. split; vm_compute; reflexivity. Qed.

End PrototypeChain.

Lemma decodeWithSchema_nonfinite_number_witness :
  (doc <- encode (record [(u16 "score", VNumber Reference.NaN)]) ;;
   decodeWithSchema doc [(u16 "score", Bare AN)])
  = Throw (TypeMismatch (u16 "score") AN AX).
Proof.
  apply (@decodeWithSchema_nonfinite_number _ Reference.host Reference.NaN).
  reflexivity.
Defined.

(** The example of the README: the encoded payload of the literal scenario,
    decoded with the schema the README gives, throws on the field [score]. *)
Example readme_schema_example :
  decodeWithSchema
    (u16 "active;b;true|age;n;27|createdAt;d;"
     ++ dquote :: u16 "2025-12-29T10:00:00.000Z"
     ++ dquote :: u16 "|deletedAt;x;|name;s;"
     ++ dquote :: u16 "Yanto Kopling"
     ++ dquote :: u16 "|score;n;")
    [(u16 "name", Bare AS); (u16 "age", Bare AN); (u16 "score", Bare AN);
     (u16 "active", Bare AB); (u16 "createdAt", Bare AD)]
  = Throw (TypeMismatch (u16 "score") AN AX).
Proof. vm_compute. reflexivity. Qed.

(** ** JSON string literals *)

Section JSONFacts.

Import JSON.

Lemma hex_value_digit d : d < 16 -> hex_value (hex_digit d) = Some d.
Proof.
  intros Hd. unfold hex_value, hex_digit.
  destruct (N.ltb_spec d 10).
  - replace ((48 <=? 48 + d) && (48 + d <=? 57)) with true.
    + f_equal. lia.
    + symmetry. apply andb_true_iff. split; apply N.leb_le; lia.
  - replace ((48 <=? 87 + d) && (87 + d <=? 57)) with false.
    + replace ((97 <=? 87 + d) && (87 + d <=? 102)) with true.
      * f_equal. lia.
      * symmetry. apply andb_true_iff. split; apply N.leb_le; lia.
    + symmetry. apply andb_false_iff. right. apply N.leb_gt. lia.
Qed.

Lemma hex_digit_plain d :
  d < 16 -> (hex_digit d =? backslash) = false /\ (hex_digit d =? dquote) = false.
Proof.
  intros Hd. unfold hex_digit, backslash, dquote.
  destruct (N.ltb_spec d 10); split; apply N.eqb_neq; lia.
Qed.

Lemma hex4_digits c :
  c < 65536 ->
  (c / 4096 mod 16) * 4096 + (c / 256 mod 16) * 256 + (c / 16 mod 16) * 16
  + c mod 16 = c.
Proof.
  intros Hc.
  pose proof (N.div_mod c 16 ltac:(lia)) as H1.
  pose proof (N.div_mod (c / 16) 16 ltac:(lia)) as H2.
  pose proof (N.div_mod (c / 16 / 16) 16 ltac:(lia)) as H3.
  rewrite N.Div0.div_div in H2, H3.
  change (16 * 16) with 256 in H2, H3.
  rewrite N.Div0.div_div in H3. change (256 * 16) with 4096 in H3.
  assert (H4 : c / 4096 < 16)
    by (apply N.Div0.div_lt_upper_bound; lia).
  rewrite (N.mod_small (c / 4096) 16 H4).
  lia.
Qed.

Lemma hex4_value_escape c :
  c < 65536 ->
  hex4_value (hex_digit (c / 4096 mod 16)) (hex_digit (c / 256 mod 16))
             (hex_digit (c / 16 mod 16)) (hex_digit (c mod 16)) = Some c.
Proof.
  intros Hc. unfold hex4_value.
  rewrite !hex_value_digit by (apply N.mod_lt; lia).
  f_equal. now apply hex4_digits.
Qed.

(** Induction along the recursion of [quote_body], which steps over one unit
    or over a surrogate pair. *)
Lemma pairwise_ind (P : jsstring -> Prop) :
  P [] ->
  (forall c rest, P rest ->
     (forall c2 rest', rest = c2 :: rest' -> P rest') -> P (c :: rest)) ->
  forall s, P s.
Proof.
  intros Hnil Hstep s.
  enough (H : P s /\ (forall c2 rest', s = c2 :: rest' -> P rest')) by apply H.
  induction s as [|c rest [IH1 IH2]]; split; try easy.
  - now apply Hstep.
  - now intros c2 rest' [= _ <-].
Qed.

Lemma short_escape_inv c e :
  short_escape c = Some e ->
  (e =? 117) = false /\ unescape e = Some c.
Proof.
  unfold short_escape.
  repeat match goal with
         | |- context [?x =? ?y] =>
             destruct (N.eqb_spec x y) as [->|?]; [intros [= <-]; now vm_compute|]
         end.
  discriminate.
Qed.

Lemma short_escape_none c :
  short_escape c = None -> (c =? dquote) = false /\ (c =? backslash) = false.
Proof.
  unfold short_escape.
  repeat match goal with
         | |- context [if ?x =? ?y then _ else _] =>
             destruct (N.eqb_spec x y) as [->|?]; [discriminate|]
         end.
  intros _. split; (reflexivity || now apply N.eqb_neq).
Qed.

Lemma parse_unicode_escape c tail :
  c < 65536 ->
  parse_body (unicode_escape c ++ tail) = cons_opt c (parse_body tail).
Proof.
  intros Hc. unfold unicode_escape. cbn [app parse_body].
  change (backslash =? dquote) with false.
  change (backslash =? backslash) with true.
  change (117 =? 117) with true. cbn iota.
  now rewrite hex4_value_escape.
Qed.

(** [JSON.parse] inverts [JSON.stringify] on every string. *)
Lemma parse_quote_body : forall s,
  parse_body (quote_body s ++ [dquote]) = Some s.
Proof.
  apply pairwise_ind; [reflexivity|].
  intros c rest IH IH2. cbn [quote_body].
  destruct (short_escape c) as [e|] eqn:Hse.
  - destruct (short_escape_inv c Hse) as [Hu Hun].
    cbn [app parse_body].
    change (backslash =? dquote) with false.
    change (backslash =? backslash) with true. cbn iota.
    now rewrite Hu, Hun, IH.
  - destruct (short_escape_none c Hse) as [Hq Hb].
    destruct (N.ltb_spec c 32) as [Hlt|Hge].
    { rewrite <- app_assoc, parse_unicode_escape by lia. now rewrite IH. }
    assert (Hplain : forall tail,
              parse_body (c :: tail) = cons_opt c (parse_body tail)).
    { intros tail. cbn [parse_body]. rewrite Hq, Hb.
      destruct (N.ltb_spec c 32); [lia|reflexivity]. }
    unfold is_leading_surrogate, is_trailing_surrogate.
    destruct (N.leb_spec 55296 c), (N.leb_spec c 56319); cbn [andb].
    + destruct rest as [|c2 rest'].
      * rewrite parse_unicode_escape by lia. reflexivity.
      * destruct (N.leb_spec 56320 c2), (N.leb_spec c2 57343); cbn [andb];
          try (rewrite <- app_assoc, parse_unicode_escape by lia;
               now rewrite IH).
        cbn [app]. rewrite Hplain. cbn [parse_body].
        destruct (N.eqb_spec c2 dquote) as [E|_]; [unfold dquote in E; lia|].
        destruct (N.eqb_spec c2 backslash) as [E|_];
          [unfold backslash in E; lia|].
        destruct (N.ltb_spec c2 32); [lia|].
        now rewrite (IH2 c2 rest' eq_refl).
    + destruct (N.leb_spec 56320 c), (N.leb_spec c 57343); cbn [andb];
        try lia;
        try (rewrite <- app_assoc, parse_unicode_escape by lia; now rewrite IH);
        cbn [app]; now rewrite Hplain, IH.
    + destruct (N.leb_spec 56320 c), (N.leb_spec c 57343); cbn [andb];
        try lia; cbn [app]; now rewrite Hplain, IH.
    + lia.
Qed.

Lemma parse_stringify s : parse (stringify s) = Some s.
Proof.
  unfold parse, stringify. change (dquote =? dquote) with true. cbn iota.
  apply parse_quote_body.
Qed.

End JSONFacts.

(** ** Quoted text under the tokenizer *)

Section QuotingFacts.

Import Tokenizer JSON.

Variable sepChar : N.

Lemma flags_app a b : forall inQ esc,
  flags inQ esc (a ++ b)
  = flags (fst (flags inQ esc a)) (snd (flags inQ esc a)) b.
Proof.
  induction a as [|ch rest IH]; intros inQ esc; [reflexivity|].
  cbn [app flags].
  destruct esc; [|destruct (ch =? backslash); [|destruct (ch =? dquote)]];
    apply IH.
Qed.

Lemma quiet_app a b : forall inQ esc,
  quiet sepChar inQ esc (a ++ b)
  = quiet sepChar inQ esc a
    && quiet sepChar (fst (flags inQ esc a)) (snd (flags inQ esc a)) b.
Proof.
  induction a as [|ch rest IH]; intros inQ esc; [reflexivity|].
  cbn [app flags quiet].
  destruct esc; [|destruct (ch =? backslash); [|destruct (ch =? dquote);
    [|destruct (negb inQ && (ch =? sepChar))]]];
    try apply IH.
  reflexivity.
Qed.

Lemma neutral_inv s :
  neutral sepChar s = true ->
  quiet sepChar false false s = true /\ flags false false s = (false, false).
Proof.
  unfold neutral. intros H. apply andb_true_iff in H as [Hq Hf].
  split; [exact Hq|].
  destruct (flags false false s) as [[|] [|]]; try discriminate; reflexivity.
Qed.

Lemma neutral_intro s :
  quiet sepChar false false s = true -> flags false false s = (false, false) ->
  neutral sepChar s = true.
Proof. unfold neutral. now intros -> ->. Qed.

Lemma neutral_app a b :
  neutral sepChar a = true -> neutral sepChar b = true ->
  neutral sepChar (a ++ b) = true.
Proof.
  intros Ha Hb. apply neutral_inv in Ha as [Hqa Hfa], Hb as [Hqb Hfb].
  apply neutral_intro.
  - now rewrite quiet_app, Hqa, Hfa.
  - now rewrite flags_app, Hfa.
Qed.

(** Inside quotes, an ordinary unit changes nothing. *)
Lemma quoted_plain c tail :
  (c =? backslash) = false -> (c =? dquote) = false ->
  flags true false (c :: tail) = flags true false tail
  /\ quiet sepChar true false (c :: tail) = quiet sepChar true false tail.
Proof. intros Hb Hq. cbn [flags quiet]. now rewrite Hb, Hq. Qed.

Lemma quoted_escape e tail :
  flags true false (backslash :: e :: tail) = flags true false tail
  /\ quiet sepChar true false (backslash :: e :: tail)
     = quiet sepChar true false tail.
Proof. split; reflexivity. Qed.

Lemma quoted_unicode_escape c tail :
  flags true false (unicode_escape c ++ tail) = flags true false tail
  /\ quiet sepChar true false (unicode_escape c ++ tail)
     = quiet sepChar true false tail.
Proof.
  unfold unicode_escape. cbn [app].
  destruct (quoted_escape 117
              (hex_digit (c / 4096 mod 16) :: hex_digit (c / 256 mod 16)
               :: hex_digit (c / 16 mod 16) :: hex_digit (c mod 16) :: tail))
    as [-> ->].
  assert (Hd : forall d rest,
            d < 16 ->
            flags true false (hex_digit d :: rest) = flags true false rest
            /\ quiet sepChar true false (hex_digit d :: rest)
               = quiet sepChar true false rest).
  { intros d rest Hlt. destruct (hex_digit_plain Hlt). now apply quoted_plain. }
  repeat match goal with
         | |- context [hex_digit ?d :: ?rest] =>
             destruct (Hd d rest ltac:(apply N.mod_lt; lia)) as [-> ->]
         end.
  split; reflexivity.
Qed.

(** The body of a quoted string leaves the scanner inside the quotes, with
    no escape pending, and delimits nothing. *)
Lemma quoted_body : forall s tail,
  flags true false (quote_body s ++ tail) = flags true false tail
  /\ quiet sepChar true false (quote_body s ++ tail)
     = quiet sepChar true false tail.
Proof.
  intros s. pattern s. apply pairwise_ind; [now split|].
  intros c rest IH IH2 tail. cbn [quote_body].
  destruct (short_escape c) as [e|] eqn:Hse.
  - cbn [app]. destruct (quoted_escape e (quote_body rest ++ tail)) as [-> ->].
    apply IH.
  - destruct (short_escape_none c Hse) as [Hq Hb].
    assert (Hesc : flags true false
                     ((unicode_escape c ++ quote_body rest) ++ tail)
                   = flags true false tail
                   /\ quiet sepChar true false
                        ((unicode_escape c ++ quote_body rest) ++ tail)
                      = quiet sepChar true false tail).
    { rewrite <- app_assoc.
      destruct (quoted_unicode_escape c (quote_body rest ++ tail)) as [-> ->].
      apply IH. }
    assert (Hplain : flags true false ((c :: quote_body rest) ++ tail)
                     = flags true false tail
                     /\ quiet sepChar true false ((c :: quote_body rest) ++ tail)
                        = quiet sepChar true false tail).
    { cbn [app].
      destruct (quoted_plain c (quote_body rest ++ tail) Hb Hq) as [-> ->].
      apply IH. }
    destruct (c <? 32); [exact Hesc|].
    destruct (is_leading_surrogate c).
    + destruct rest as [|c2 rest'].
      * apply quoted_unicode_escape.
      * destruct (is_trailing_surrogate c2) eqn:Ht; [|exact Hesc].
        cbn [app].
        destruct (quoted_plain c (c2 :: quote_body rest' ++ tail) Hb Hq)
          as [-> ->].
        unfold is_trailing_surrogate in Ht.
        apply andb_true_iff in Ht as [Ht _]. apply N.leb_le in Ht.
        assert (Hb2 : (c2 =? backslash) = false)
          by (apply N.eqb_neq; unfold backslash; lia).
        assert (Hq2 : (c2 =? dquote) = false)
          by (apply N.eqb_neq; unfold dquote; lia).
        destruct (quoted_plain c2 (quote_body rest' ++ tail) Hb2 Hq2)
          as [-> ->].
        apply (IH2 c2 rest' eq_refl).
    + destruct (is_trailing_surrogate c); [exact Hesc|exact Hplain].
Qed.

Lemma neutral_stringify s : neutral sepChar (stringify s) = true.
Proof.
  unfold stringify. apply neutral_intro.
  - cbn [quiet]. change (dquote =? backslash) with false.
    change (dquote =? dquote) with true. cbn iota. cbn [negb].
    destruct (quoted_body s [dquote]) as [_ ->]. reflexivity.
  - cbn [flags]. change (dquote =? backslash) with false.
    change (dquote =? dquote) with true. cbn iota. cbn [negb].
    destruct (quoted_body s [dquote]) as [-> _]. reflexivity.
Qed.

End QuotingFacts.

(** ** Trimming *)

Lemma trimStart_head c s :
  is_whitespace c = false -> trimStart (c :: s) = c :: s.
Proof. intros H. simpl. now rewrite H. Qed.

Lemma trim_stringify s : trim (JSON.stringify s) = JSON.stringify s.
Proof.
  unfold trim, trimEnd, JSON.stringify.
  rewrite trimStart_head by reflexivity.
  change (dquote :: JSON.quote_body s ++ [dquote])
    with ((dquote :: JSON.quote_body s) ++ [dquote]).
  rewrite rev_app_distr. cbn [rev app].
  rewrite trimStart_head by reflexivity.
  change (dquote :: rev (JSON.quote_body s) ++ [dquote])
    with ((dquote :: rev (JSON.quote_body s)) ++ [dquote]).
  rewrite rev_app_distr. cbn [rev app]. now rewrite rev_involutive.
Qed.

Lemma quoted_stringify s : quoted (JSON.stringify s) = true.
Proof.
  unfold quoted, endsWith_dquote, JSON.stringify.
  change (dquote :: JSON.quote_body s ++ [dquote])
    with ((dquote :: JSON.quote_body s) ++ [dquote]).
  rewrite rev_app_distr. reflexivity.
Qed.

(** ** The decoder *)

Section DecoderFacts.

Context {number : Type} {host : Host number}.

Abbreviation value := (value number).
Abbreviation object := (object number).

Lemma ALIAS_TO_PARSER_known type :
  ALIAS_TO_PARSER type
  = match known_alias type with
    | Some a => Parser a
    | None => if mem type Object_prototype_keys then Inherited type else Absent
    end.
Proof.
  unfold ALIAS_TO_PARSER, known_alias.
  repeat match goal with
         | |- context [if str_eqb ?a ?b then _ else _] =>
             destruct (str_eqb a b); [reflexivity|]
         end.
  reflexivity.
Qed.





End DecoderFacts.



(** ** Round trip *)

Section RoundTrip.

Context {number : Type} {host : Host number}.

Abbreviation value := (value number).
Abbreviation object := (object number).

Import Tokenizer.

Lemma update_fresh k (v : value) l :
  lookup k l = None -> update k v l = l ++ [(k, v)].
Proof.
  induction l as [|[k' v'] l IH]; simpl; [reflexivity|].
  destruct (str_eqb k k'); [discriminate|].
  intros H. now rewrite IH.
Qed.

Lemma set_fresh (r : object) k v :
  lookup k (props r) = None -> str_eqb k proto_key = false ->
  set r k v = Obj (props r ++ [(k, v)]) (prototype r).
Proof.
  intros Hl Hp. unfold set. rewrite Hl, Hp. cbn [andb].
  now rewrite update_fresh.
Qed.

Lemma row_fields key a raw :
  neutral semicolon key = true ->
  quiet semicolon false false raw = true ->
  splitOutsideQuotes (row_text key a raw) semicolon = [key; [alias_unit a]; raw].
Proof.
  intros Hk Hr. apply neutral_inv in Hk as [Hq Hf].
  rewrite splitOutsideQuotes_fields. unfold row_text.
  rewrite fields_app, Hf, (quiet_fields _ _ _ _ Hq). cbn [fst snd].
  assert (E : fields semicolon false false
                (semicolon :: alias_unit a :: semicolon :: raw)
              = [[]; [alias_unit a]; raw]).
  { destruct a; cbn [fields alias_unit];
      rewrite (quiet_fields _ _ _ _ Hr); reflexivity. }
  rewrite E. cbn [glue removelast last app]. now rewrite app_nil_r.
Qed.

Lemma row_neutral key a raw :
  neutral bar key = true -> neutral bar raw = true ->
  neutral bar (row_text key a raw) = true.
Proof.
  intros Hk Hr. unfold row_text. apply neutral_app; [exact Hk|].
  apply neutral_inv in Hr as [Hq Hf]. apply neutral_intro.
  - destruct a; cbn [quiet alias_unit]; exact Hq.
  - destruct a; cbn [flags alias_unit]; exact Hf.
Qed.

Lemma row_nonempty key a raw : row_text key a raw <> [].
Proof. unfold row_text. now destruct key. Qed.

Lemma plain_key_inv k :
  plain_key k = true ->
  str_eqb k [] = false /\ trim k = k /\ str_eqb k proto_key = false
  /\ neutral semicolon k = true /\ neutral bar k = true.
Proof.
  unfold plain_key. intros H.
  repeat (apply andb_true_iff in H as [H ?]).
  apply negb_true_iff in H.
  repeat split; try assumption.
  - now apply str_eqb_eq.
  - now apply negb_true_iff.
Qed.

(** A row for a plain key, with a text that holds no delimiting [;], is read
    back as the key and the value its parser gives. *)
Lemma decode_plain_row (result : object) key a raw v :
  plain_key key = true ->
  quiet semicolon false false raw = true ->
  parser_of a raw = Ok v ->
  decode_row result (row_text key a raw) = Ok (set result key v).
Proof.
  intros Hk Hq Hv.
  destruct (plain_key_inv key Hk) as (Hne & Htrim & _ & Hsemi & _).
  unfold decode_row. rewrite row_fields by assumption. rewrite Htrim, Hne.
  rewrite ALIAS_TO_PARSER_known.
  replace (trim [alias_unit a]) with [alias_unit a] by now destruct a.
  replace (known_alias [alias_unit a]) with (Some a) by now destruct a.
  now rewrite Hv.
Qed.

Lemma fields_join rows :
  rows <> [] -> Forall (fun r => neutral bar r = true) rows ->
  fields bar false false (join bar rows) = rows.
Proof.
  induction rows as [|x [|y rows] IH]; [congruence| |]; intros _ Hall.
  - inversion Hall as [|? ? Hx _]; subst.
    apply neutral_inv in Hx as [Hq _]. now apply quiet_fields.
  - inversion Hall as [|? ? Hx Hrest]; subst.
    apply neutral_inv in Hx as [Hq Hf].
    change (join bar (x :: y :: rows)) with (x ++ bar :: join bar (y :: rows)).
    rewrite fields_app, Hf, (quiet_fields _ _ _ _ Hq).
    cbn [fst snd fields].
    change (bar =? backslash) with false. change (bar =? dquote) with false.
    change (negb false && (bar =? bar)) with true. cbn iota.
    rewrite IH by (congruence || assumption).
    cbn [glue removelast last app]. now rewrite app_nil_r.
Qed.

Lemma decode_rows_join rows :
  Forall (fun r => neutral bar r = true /\ r <> []) rows ->
  decode_rows (join bar rows) = rows.
Proof.
  intros Hall. unfold decode_rows. rewrite splitOutsideQuotes_fields.
  destruct rows as [|x rows]; [reflexivity|].
  rewrite fields_join; [|congruence|].
  - apply forallb_filter_id. apply forallb_forall. intros r Hr.
    rewrite Forall_forall in Hall. destruct (Hall r Hr) as [_ Hne].
    now destruct r.
  - eapply Forall_impl; [|exact Hall]. now intros r [Hn _].
Qed.

End RoundTrip.

Section RoundTripTheorem.

Context {number : Type} {host : Host number}.

Abbreviation value := (value number).
Abbreviation object := (object number).

Import Tokenizer.

(** Each supported value that the host prints and reads faithfully is
    encoded to a text that its parser reads back, and that the tokenizer
    passes over. *)
Lemma value_round_trip key (v : value) :
  supported v = true -> host_faithful v ->
  exists a raw,
    is_undefined v = false
    /\ inferAlias v = Ok a
    /\ encodeValue a key v = Ok raw
    /\ parser_of a raw = Ok (nullify v)
    /\ quiet semicolon false false raw = true
    /\ neutral bar raw = true.
Proof.
  destruct v as [| |s|n|b|d|b]; cbn [supported]; try discriminate;
    intros _ Hhost.
  - exists AX, []. repeat split; reflexivity.
  - exists AS, (JSON.stringify s).
    repeat split; try reflexivity.
    + cbn [parser_of]. unfold parse_s.
      rewrite trim_stringify.
      change (startsWith_dquote (JSON.stringify s)
              && endsWith_dquote (JSON.stringify s))
        with (quoted (JSON.stringify s)).
      now rewrite quoted_stringify, parse_stringify.
    + apply (neutral_inv semicolon), neutral_stringify.
    + apply neutral_stringify.
  - cbn [host_faithful] in Hhost. cbn [nullify].
    destruct (Number_isFinite n) eqn:Hfin.
    + destruct (Hhost eq_refl) as (Hq & Hn & Hne & Hback).
      exists AN, (Number_toString n).
      repeat split; try reflexivity; try assumption.
      * cbn [encodeValue]. now rewrite Hfin.
      * cbn [parser_of]. unfold parse_n.
        apply str_eqb_neq in Hne. now rewrite Hne, Hback, Hfin.
    + exists AN, []. repeat split; try reflexivity.
      cbn [encodeValue]. now rewrite Hfin.
  - exists AB, (if b then u16 "true" else u16 "false").
    repeat split; try reflexivity; destruct b; reflexivity.
  - destruct Hhost as (t & -> & Hback).
    exists AD, (JSON.stringify (Date_toISOString t)).
    repeat split; try reflexivity.
    + cbn [parser_of]. unfold parse_d.
      rewrite trim_stringify.
      change (startsWith_dquote (JSON.stringify (Date_toISOString t))
              && endsWith_dquote (JSON.stringify (Date_toISOString t)))
        with (quoted (JSON.stringify (Date_toISOString t))).
      rewrite quoted_stringify, parse_stringify. cbn [bind].
      now rewrite Hback.
    + apply (neutral_inv semicolon), neutral_stringify.
    + apply neutral_stringify.
Qed.

Lemma encode_loop_reads_back (obj : object) keys :
  (forall k, In k keys ->
     plain_key k = true /\ supported (get obj k) = true
     /\ host_faithful (get obj k)) ->
  exists rows,
    encode_loop obj keys [] = Ok rows /\ Forall2 (reads_back obj) keys rows.
Proof.
  induction keys as [|key keys IH]; intros Hkeys.
  - exists []. split; [reflexivity|constructor].
  - destruct (Hkeys key (or_introl eq_refl)) as (Hplain & Hsup & Hhost).
    destruct (value_round_trip key (get obj key) Hsup Hhost)
      as (a & raw & Hu & Ha & He & Hp & Hq & Hn).
    destruct IH as (rows & Hrows & Hall);
      [intros k Hk; apply Hkeys; now right|].
    exists (row_text key a raw :: rows). split.
    + erewrite encode_loop_step by eassumption.
      rewrite encode_loop_acc, Hrows. reflexivity.
    + constructor; [|exact Hall].
      destruct (plain_key_inv key Hplain) as (_ & _ & _ & _ & Hbar).
      repeat split.
      * now apply row_neutral.
      * apply row_nonempty.
      * intros result. now apply decode_plain_row.
Qed.

Lemma decode_loop_reads_back (obj : object) keys rows :
  Forall2 (reads_back obj) keys rows ->
  forall result,
    decode_loop rows result
    = Ok (fold_left (fun r k => set r k (nullify (get obj k))) keys result).
Proof.
  induction 1 as [|key row keys rows (_ & _ & Hrow) _ IH]; intros result;
    [reflexivity|].
  cbn [decode_loop fold_left]. rewrite Hrow. cbn [bind]. apply IH.
Qed.

Lemma lookup_app_fresh k (l : list (jsstring * value)) k' v :
  lookup k l = None -> str_eqb k k' = false ->
  lookup k (l ++ [(k', v)]) = None.
Proof.
  induction l as [|[k0 v0] l IH]; simpl.
  - now intros _ ->.
  - destruct (str_eqb k k0); [discriminate|]. apply IH.
Qed.

(** Assignments to distinct fresh keys other than [__proto__] append own
    properties, and leave the prototype alone. *)
Lemma fold_set_fresh (f : jsstring -> value) keys : forall acc p,
  NoDup keys ->
  (forall k, In k keys -> str_eqb k proto_key = false /\ lookup k acc = None) ->
  fold_left (fun r k => set r k (f k)) keys (Obj acc p)
  = Obj (acc ++ map (fun k => (k, f k)) keys) p.
Proof.
  induction keys as [|key keys IH]; intros acc p Hnd Hfresh; cbn [fold_left map].
  - now rewrite app_nil_r.
  - inversion Hnd as [|? ? Hnotin Hnd']; subst.
    destruct (Hfresh key (or_introl eq_refl)) as [Hp Hl].
    rewrite set_fresh by assumption. cbn [props prototype].
    rewrite IH; [now rewrite <- app_assoc|exact Hnd'|].
    intros k Hk. destruct (Hfresh k (or_intror Hk)) as [Hkp Hkl].
    split; [exact Hkp|]. apply lookup_app_fresh; [exact Hkl|].
    apply str_eqb_neq. intros ->. contradiction.
Qed.

Lemma mem_In k l : mem k l = true <-> In k l.
Proof.
  unfold mem. rewrite existsb_exists. split.
  - intros (x & Hx & He). apply str_eqb_eq in He. now subst.
  - intros H. exists k. split; [exact H|apply str_eqb_refl].
Qed.

Lemma lookup_map_keys (f : jsstring -> value) ks k :
  lookup k (map (fun k => (k, f k)) ks)
  = if mem k ks then Some (f k) else None.
Proof.
  induction ks as [|k' ks IH]; [reflexivity|].
  cbn [map lookup mem existsb].
  destruct (str_eqb_spec k k') as [->|_]; [reflexivity|exact IH].
Qed.

Lemma lookup_map_values (g : value -> value) (l : list (jsstring * value)) k :
  lookup k (map (fun kv => (fst kv, g (snd kv))) l)
  = option_map g (lookup k l).
Proof.
  induction l as [|[k' v'] l IH]; [reflexivity|].
  cbn [map lookup fst snd]. now destruct (str_eqb k k').
Qed.

End RoundTripTheorem.

Section RoundTripProperty.

Context {number : Type} {host : Host number}.

Abbreviation value := (value number).
Abbreviation object := (object number).

Lemma Forall2_rows (obj : object) keys rows :
  Forall2 (reads_back obj) keys rows ->
  Forall (fun r => Tokenizer.neutral bar r = true /\ r <> []) rows.
Proof.
  induction 1 as [|key row keys rows (Hn & Hne & _) _ IH]; constructor; auto.
Qed.

Lemma key_entry k (l : list (jsstring * value)) :
  In k (map fst l) -> exists v, In (k, v) l.
Proof.
  intros H. apply in_map_iff in H as ([k' v] & Hk & Hin).
  simpl in Hk. subst k'. now exists v.
Qed.

(** C1, amended. Let R be a flat record whose values are of the supported
    kinds (string, number, boolean, date, null; no undefined), whose keys are
    plain (not empty, no white space at either end, not [__proto__], no
    delimiting [;] or [|], quotes closed, no trailing backslash), and whose
    numbers and dates the host prints and reads back faithfully (the dates
    being valid). Then [decode (encode R)] succeeds and is deep-equal to R
    with every non-finite number replaced by [null]. In particular, under a
    plain key every string value round-trips exactly, whatever it contains,
    [;], [|] and double quotes included. *)
Theorem round_trip :
  (forall l : list (jsstring * value),
     NoDup (map fst l) ->
     (forall k v, In (k, v) l ->
        plain_key k = true /\ supported v = true /\ host_faithful v) ->
     round_trips l)
  /\ (forall k s, plain_key k = true -> round_trips [(k, VString s)]).
Proof.
  assert (Hmain : forall l : list (jsstring * value),
             NoDup (map fst l) ->
             (forall k v, In (k, v) l ->
                plain_key k = true /\ supported v = true /\ host_faithful v) ->
             round_trips l).
  { intros l Hnd Hl.
    assert (Hperm : Permutation (map fst l) (sort (map fst l)))
      by apply sort_perm.
    assert (Hkeys : forall k, In k (sort (map fst l)) ->
              plain_key k = true /\ supported (get (record l) k) = true
              /\ host_faithful (get (record l) k)).
    { intros k Hk.
      apply (Permutation_in _ (Permutation_sym Hperm)) in Hk.
      destruct (key_entry k l Hk) as [v Hv].
      unfold record. erewrite get_own by eassumption. now apply Hl. }
    destruct (encode_loop_reads_back (record l) _ Hkeys)
      as (rows & Hrows & Hall).
    exists (join bar rows).
    exists (Obj (map (fun k => (k, nullify (get (record l) k)))
                     (sort (map fst l))) ObjectPrototype).
    split; [|split].
    - unfold encode, encode_rows, Object_keys.
      change (props (record l)) with l.
      change (isPlainObject (record l)) with true. cbn [negb].
      now rewrite Hrows.
    - unfold decode.
      rewrite (decode_rows_join (Forall2_rows Hall)).
      rewrite (decode_loop_reads_back Hall). f_equal.
      unfold empty_object. rewrite fold_set_fresh; [reflexivity| |].
      + eapply Permutation_NoDup; [exact Hperm|exact Hnd].
      + intros k Hk. destruct (Hkeys k Hk) as [Hplain _].
        destruct (plain_key_inv k Hplain) as (_ & _ & Hp & _).
        now split.
    - split; [reflexivity|]. intros k. cbn [props decoded record].
      rewrite lookup_map_keys, lookup_map_values.
      destruct (mem k (sort (map fst l))) eqn:Hmem.
      + apply mem_In in Hmem.
        apply (Permutation_in _ (Permutation_sym Hperm)) in Hmem.
        destruct (key_entry k l Hmem) as [v Hv].
        unfold record. erewrite get_own by eassumption.
        erewrite lookup_in by eassumption. reflexivity.
      + assert (Hnot : ~ In k (map fst l)).
        { intros Hin. apply (Permutation_in _ Hperm) in Hin.
          apply mem_In in Hin. congruence. }
        apply lookup_none in Hnot. now rewrite Hnot. }
  split; [exact Hmain|].
  intros k s Hk. apply Hmain.
  - repeat constructor. simpl. tauto.
  - intros k' v [[= <- <-]|[]]. split; [exact Hk|]. split; [reflexivity|exact I].
Qed.

End RoundTripProperty.

(** C1, as stated, fails for a key that holds a separator: the
    record with the single key [a;b] and the value [true] is encoded to
    [a;b;b;true], which [decode] rejects as a row of four fields. *)
Lemma round_trip_key_with_separator :
  supported (VBoolean true : value Reference.num) = true
  /\ encode (record [(u16 "a;b", VBoolean true)]) = Ok (u16 "a;b;b;true")
  /\ decode (u16 "a;b;b;true") = Throw (InvalidRow (u16 "a;b;b;true"))
  /\ ~ round_trips [(u16 "a;b", VBoolean true)].
Proof.
  split; [reflexivity|].
  split; [vm_compute; reflexivity|].
  split; [vm_compute; reflexivity|].
  intros (doc & o & He & Hd & _).
  vm_compute in He. injection He as <-.
  vm_compute in Hd. discriminate.
Qed.

Lemma round_trip_witness :
  round_trips
    [(u16 "name", VString (u16 "a;b|c" ++ [dquote; backslash; 10; 55357]));
     (u16 "age", VNumber (Reference.Int 27));
     (u16 "score", VNumber Reference.NaN);
     (u16 "active", VBoolean true);
     (u16 "createdAt", VDate (ValidDate 1767002400000));
     (u16 "deletedAt", VNull)].
Proof.
  apply (proj1 (@round_trip _ Reference.host)).
  - repeat constructor; simpl; intuition discriminate.
  - intros k v Hin. simpl in Hin.
    destruct Hin as [[= <- <-]|[[= <- <-]|[[= <- <-]|[[= <- <-]|[[= <- <-]|
                    [[= <- <-]|[]]]]]]];
      (split; [vm_compute; reflexivity|split; [reflexivity|]]).
    + exact I.
    + intros _. vm_compute. repeat split; try reflexivity. discriminate.
    + intros H. vm_compute in H. discriminate H.
    + exact I.
    + exists 1767002400000%Z. split; [reflexivity|vm_compute; reflexivity].
    + exact I.
Defined.

(** ** Duplicate keys and schema fields away from the prototype chain *)

Section OwnProperties.

Context {number : Type} {host : Host number}.

Abbreviation value := (value number).
Abbreviation object := (object number).

Lemma lookup_update_same k (v : value) l : lookup k (update k v l) = Some v.
Proof.
  induction l as [|[k' v'] l IH]; simpl.
  - now rewrite str_eqb_refl.
  - destruct (str_eqb k k') eqn:E; simpl.
    + now rewrite str_eqb_refl.
    + now rewrite E.
Qed.

Lemma lookup_update_other k k' (v : value) l :
  k <> k' -> lookup k (update k' v l) = lookup k l.
Proof.
  intros Hne. induction l as [|[k0 v0] l IH]; simpl.
  - apply str_eqb_neq in Hne. now rewrite Hne.
  - destruct (str_eqb_spec k' k0) as [->|Hk0]; simpl.
    + apply str_eqb_neq in Hne. now rewrite Hne.
    + now rewrite IH.
Qed.

Lemma lookup_set_same (r : object) k v :
  str_eqb k proto_key = false -> lookup k (props (set r k v)) = Some v.
Proof.
  intros Hp. unfold set. rewrite Hp. cbn [andb].
  destruct (lookup k (props r)); cbn [props]; apply lookup_update_same.
Qed.

Lemma lookup_set_other (r : object) k k' v :
  k <> k' -> lookup k (props (set r k' v)) = lookup k (props r).
Proof.
  intros Hne. unfold set.
  destruct (lookup k' (props r));
    [|destruct (str_eqb k' proto_key && mem k' (inherited_keys (prototype r)))];
    cbn [props]; try reflexivity; now apply lookup_update_other.
Qed.

Lemma decode_row_ok (r r' : object) row :
  decode_row r row = Ok r' ->
  exists key v, row_key row = Some key /\ row_value row = Ok v
                /\ r' = set r key v.
Proof.
  unfold decode_row, row_key, row_value.
  destruct (Tokenizer.splitOutsideQuotes row semicolon)
    as [|keyRaw [|typeRaw [|valueRaw [|extra parts]]]]; try discriminate.
  rewrite ALIAS_TO_PARSER_known.
  destruct (str_eqb (trim keyRaw) []); [discriminate|].
  destruct (known_alias (trim typeRaw)) as [a|].
  - destruct (parser_of a valueRaw) as [v| |]; simpl; try discriminate.
    intros [= <-]. now exists (trim keyRaw), v.
  - destruct (mem (trim typeRaw) Object_prototype_keys); discriminate.
Qed.

Lemma decode_loop_app rows1 rows2 : forall r : object,
  decode_loop (rows1 ++ rows2) r
  = (r' <- decode_loop rows1 r ;; decode_loop rows2 r').
Proof.
  induction rows1 as [|row rows1 IH]; intros r; [reflexivity|].
  cbn [app decode_loop].
  destruct (decode_row r row); simpl; auto.
Qed.

Lemma decode_loop_other_keys rows k : forall r o : object,
  decode_loop rows r = Ok o ->
  (forall row, In row rows -> row_key row <> Some k) ->
  lookup k (props o) = lookup k (props r).
Proof.
  induction rows as [|row rows IH]; intros r o; cbn [decode_loop].
  - now intros [= <-].
  - destruct (decode_row r row) as [r'| |] eqn:Hrow; simpl; try discriminate.
    intros Ho Hkeys.
    destruct (decode_row_ok _ _ Hrow) as (key & v & Hkey & _ & ->).
    rewrite (IH _ _ Ho) by (intros row' Hin; apply Hkeys; now right).
    apply lookup_set_other. intros ->.
    now apply (Hkeys row (or_introl eq_refl)).
Qed.

(** Later rows overwrite earlier ones: for a key other than [__proto__], a
    record that [decode] returns holds the value of the last row with that
    key. *)
Lemma decode_last_row_wins rows1 row rows2 (o : object) k v :
  decode_loop (rows1 ++ row :: rows2) empty_object = Ok o ->
  row_key row = Some k -> row_value row = Ok v ->
  str_eqb k proto_key = false ->
  (forall row', In row' rows2 -> row_key row' <> Some k) ->
  lookup k (props o) = Some v.
Proof.
  intros Ho Hkey Hval Hproto Hlater.
  rewrite decode_loop_app in Ho.
  destruct (decode_loop rows1 empty_object) as [r1| |]; simpl in Ho;
    try discriminate.
  destruct (decode_row r1 row) as [r2| |] eqn:Hrow; simpl in Ho;
    try discriminate.
  destruct (decode_row_ok _ _ Hrow) as (key & v' & Hkey' & Hval' & ->).
  rewrite Hkey in Hkey'. injection Hkey' as <-.
  rewrite Hval in Hval'. injection Hval' as <-.
  rewrite (decode_loop_other_keys _ _ Ho Hlater).
  now apply lookup_set_same.
Qed.

(** The step of [decodeWithSchema] on a field that the decoded record does
    not have, neither as an own property nor on its prototype chain: an
    optional field is set to [undefined], a required one throws. *)
Lemma schema_loop_absent (raw out : object) k sv schema :
  lookup k (props raw) = None ->
  mem k (inherited_keys (prototype raw)) = false ->
  schema_loop raw ((k, sv) :: schema) out
  = if snd (normalizeSchemaValue sv)
    then schema_loop raw schema (set out k VUndefined)
    else Throw (MissingKey k).
Proof.
  intros Hown Hinh. cbn [schema_loop]. unfold has_property.
  rewrite Hown, Hinh. now destruct (normalizeSchemaValue sv) as [t []].
Qed.

Lemma lookup_set_subset (r : object) k k' v :
  lookup k (props (set r k' v)) <> None ->
  k = k' \/ lookup k (props r) <> None.
Proof.
  destruct (str_eqb_spec k k') as [->|Hne]; [now left|].
  rewrite lookup_set_other by assumption. now right.
Qed.

(** Projection: the own properties of the result are fields of the schema. *)
Lemma schema_loop_projection (raw : object) schema : forall out o k,
  schema_loop raw schema out = Ok o ->
  lookup k (props o) <> None ->
  In k (map fst schema) \/ lookup k (props out) <> None.
Proof.
  induction schema as [|[k' sv] schema IH]; intros out o k; cbn [schema_loop].
  - intros [= <-]. now right.
  - destruct (normalizeSchemaValue sv) as [expected optional].
    assert (Hstep : forall v, schema_loop raw schema (set out k' v) = Ok o ->
              lookup k (props o) <> None ->
              In k (map fst ((k', sv) :: schema))
              \/ lookup k (props out) <> None).
    { intros v Ho Hk. destruct (IH _ _ _ Ho Hk) as [Hin|Hset].
      - left. now right.
      - destruct (lookup_set_subset _ _ _ _ Hset) as [->|Hout];
          [left; now left|now right]. }
    destruct (negb (has_property raw k')).
    + destruct optional; [apply Hstep|discriminate].
    + destruct (inferAlias (get raw k')) as [actual| |]; simpl;
        try discriminate.
      destruct (negb (alias_eqb actual expected)); [discriminate|apply Hstep].
Qed.

End OwnProperties.

(** The example of the specification for an optional field: the field [b],
    absent from the document, is set to [undefined] without an error. *)
Example decodeWithSchema_optional_example :
  (doc <- encode (record [(u16 "a", VNumber (Reference.Int 1))]) ;;
   decodeWithSchema doc [(u16 "a", Bare AN);
                         (u16 "b", Described AS (Some true))])
  = Ok (record [(u16 "a", VNumber (Reference.Int 1)); (u16 "b", VUndefined)]).
Proof. vm_compute. reflexivity. Qed.

(** A row whose alias names a member of [Object.prototype] is not rejected
    as an unknown alias: the member is found in the parser table and
    called. *)
Example decode_inherited_alias :
  decode (u16 "a;toString;x")
  = (InheritedCall (u16 "toString") (u16 "x") : outcome (object Reference.num)).
Proof. vm_compute. reflexivity. Qed.

(** A record with an invalid date is not encoded: [toISOString] throws. *)
Example encode_invalid_date :
  encode (record [(u16 "d", VDate InvalidDate : value Reference.num)])
  = Throw RangeError.
Proof. vm_compute. reflexivity. Qed.

(** * Further properties of the source *)

(** ** The tokenizer: fields and concatenation *)

Section TokenizerFields.

Import Tokenizer.

Variable sepChar : N.

Lemma quiet_push_head ch l inQ esc inQ' esc' :
  (forall f, quiet sepChar inQ esc (ch :: f) = quiet sepChar inQ' esc' f) ->
  match l with
  | [] => False
  | f0 :: rest =>
      quiet sepChar inQ' esc' f0 = true
      /\ Forall (fun f => quiet sepChar false false f = true) rest
  end ->
  match push_head ch l with
  | [] => False
  | f0 :: rest =>
      quiet sepChar inQ esc f0 = true
      /\ Forall (fun f => quiet sepChar false false f = true) rest
  end.
Proof.
  intros Hstep. destruct l as [|f0 rest]; [easy|].
  intros [Hq Hrest]. cbn [push_head]. now rewrite Hstep.
Qed.

(** The field in progress holds no delimiter when read with the flags it was
    started with, and each later field holds none when read from scratch. *)
Lemma fields_quiet input : forall inQ esc,
  match fields sepChar inQ esc input with
  | [] => False
  | f0 :: rest =>
      quiet sepChar inQ esc f0 = true
      /\ Forall (fun f => quiet sepChar false false f = true) rest
  end.
Proof.
  induction input as [|ch rest IH]; intros inQ esc.
  - simpl. split; [reflexivity|constructor].
  - cbn [fields].
    destruct esc.
    + apply quiet_push_head with (inQ' := inQ) (esc' := false); [|apply IH].
      reflexivity.
    + destruct (ch =? backslash) eqn:Hb.
      * apply quiet_push_head with (inQ' := inQ) (esc' := true); [|apply IH].
        intros f. cbn [quiet]. now rewrite Hb.
      * destruct (ch =? dquote) eqn:Hq.
        -- apply quiet_push_head with (inQ' := negb inQ) (esc' := false);
             [|apply IH].
           intros f. cbn [quiet]. now rewrite Hb, Hq.
        -- destruct (negb inQ && (ch =? sepChar)) eqn:Hs.
           ++ apply andb_true_iff in Hs as [HinQ _].
              apply negb_true_iff in HinQ. subst inQ.
              specialize (IH false false).
              destruct (fields sepChar false false rest) as [|f0 fs]; [easy|].
              destruct IH as [Hf0 Hfs].
              split; [reflexivity|now constructor].
           ++ apply quiet_push_head with (inQ' := inQ) (esc' := false);
                [|apply IH].
              intros f. cbn [quiet]. now rewrite Hb, Hq, Hs.
Qed.

Lemma glue_empty_head l r : l <> [] -> glue l ([] :: r) = l ++ r.
Proof.
  intros Hl. cbn [glue]. rewrite app_nil_r.
  rewrite (app_removelast_last [] Hl) at 3.
  now rewrite <- app_assoc.
Qed.

Lemma fields_separator a b :
  sepChar <> dquote -> sepChar <> backslash ->
  flags false false a = (false, false) ->
  fields sepChar false false (a ++ sepChar :: b)
  = fields sepChar false false a ++ fields sepChar false false b.
Proof.
  intros Hq Hb Ha. rewrite fields_app, Ha. cbn [fst snd fields].
  destruct (N.eqb_spec sepChar backslash); [congruence|].
  destruct (N.eqb_spec sepChar dquote); [congruence|].
  rewrite N.eqb_refl. cbn [negb andb].
  apply glue_empty_head, fields_nonempty.
Qed.

End TokenizerFields.

(** X1. No field that [splitOutsideQuotes] returns can be split again: the
    tokenizer applied to a field of its result, with the same separator,
    returns that field alone. *)
Theorem splitOutsideQuotes_idempotent (input f : jsstring) (sepChar : N) :
  In f (Tokenizer.splitOutsideQuotes input sepChar) ->
  Tokenizer.splitOutsideQuotes f sepChar = [f].
Proof.
  rewrite !splitOutsideQuotes_fields. intros Hin.
  apply quiet_fields.
  pose proof (fields_quiet sepChar input false false) as H.
  destruct (Tokenizer.fields sepChar false false input) as [|f0 rest]; [easy|].
  destruct H as [Hf0 Hrest]. destruct Hin as [<-|Hin]; [exact Hf0|].
  rewrite Forall_forall in Hrest. now apply Hrest.
Qed.

Lemma splitOutsideQuotes_idempotent_witness :
  Tokenizer.splitOutsideQuotes (dquote :: u16 "b;c" ++ [dquote]) semicolon
  = [dquote :: u16 "b;c" ++ [dquote]].
Proof.
  apply (splitOutsideQuotes_idempotent
           (u16 "a;" ++ dquote :: u16 "b;c" ++ dquote :: u16 ";d")).
  vm_compute. right. left. reflexivity.
Defined.

(** X2. The tokenizer distributes over a separator that follows a balanced
    prefix: when the prefix [a] leaves the scanner outside quotes with no
    escape pending, and the separator is neither the double quote nor the
    backslash, the fields of [a], the separator and [b] are the fields of
    [a] followed by the fields of [b]. *)
Theorem splitOutsideQuotes_app (a b : jsstring) (sepChar : N) :
  sepChar <> dquote -> sepChar <> backslash ->
  Tokenizer.flags false false a = (false, false) ->
  Tokenizer.splitOutsideQuotes (a ++ sepChar :: b) sepChar
  = Tokenizer.splitOutsideQuotes a sepChar
    ++ Tokenizer.splitOutsideQuotes b sepChar.
Proof.
  intros Hq Hb Ha. rewrite !splitOutsideQuotes_fields.
  now apply fields_separator.
Qed.

Lemma splitOutsideQuotes_app_witness :
  Tokenizer.splitOutsideQuotes
    ((dquote :: u16 "x|y" ++ [dquote]) ++ bar :: u16 "z|") bar
  = [dquote :: u16 "x|y" ++ [dquote]; u16 "z"; []].
Proof.
  rewrite splitOutsideQuotes_app;
    [reflexivity | discriminate | discriminate | reflexivity].
Defined.

(** ** The decoder: concatenated documents and decoded values *)

Section DecoderComposition.

Context {number : Type} {host : Host number}.

Abbreviation value := (value number).
Abbreviation object := (object number).

Lemma decode_rows_separator a b :
  Tokenizer.flags false false a = (false, false) ->
  decode_rows (a ++ bar :: b) = decode_rows a ++ decode_rows b.
Proof.
  intros Ha. unfold decode_rows. rewrite !splitOutsideQuotes_fields.
  rewrite fields_separator by (discriminate || assumption).
  apply filter_app.
Qed.

Lemma bind_Ok (A : Type) (m : outcome A) : (r <- m ;; Ok r) = m.
Proof. now destruct m. Qed.

(** X3. Empty rows do not count, and documents compose. For a document [a]
    that ends outside quotes with no escape pending: decoding [a], a [|] and
    [b] is decoding [a] and then reading the rows of [b] into its record (an
    error of [a] comes first); a trailing [|] changes nothing; and a leading
    [|] changes nothing either. *)
Theorem decode_concatenation (a b : jsstring) :
  Tokenizer.flags false false a = (false, false) ->
  decode (a ++ bar :: b)
  = (r <- decode a ;; decode_loop (decode_rows b) (r : object))
  /\ decode (a ++ [bar]) = (decode a : outcome object)
  /\ decode (bar :: b) = (decode b : outcome object).
Proof.
  intros Ha. split; [|split].
  - unfold decode. now rewrite decode_rows_separator, decode_loop_app.
  - unfold decode. rewrite decode_rows_separator by assumption.
    rewrite decode_loop_app. change (decode_rows []) with (@nil jsstring).
    apply bind_Ok.
  - unfold decode. change (bar :: b) with ([] ++ bar :: b).
    now rewrite (decode_rows_separator [] b eq_refl).
Qed.


(** A parser returns a string, a boolean, [null], a finite number or a valid
    date. *)
Lemma parser_value a raw (v : value) :
  parser_of a raw = Ok v -> parsed_value v = true.
Proof.
  destruct a; cbn [parser_of].
  - unfold parse_s.
    destruct (startsWith_dquote (trim raw) && endsWith_dquote (trim raw));
      [destruct (JSON.parse (trim raw))|]; try discriminate;
      now intros [= <-].
  - unfold parse_n. destruct (str_eqb (trim raw) []); [now intros [= <-]|].
    destruct (Number_isFinite (Number_ofString (trim raw))) eqn:Hfin;
      cbn [negb]; intros [= <-]; [exact Hfin|reflexivity].
  - unfold parse_b.
    destruct (str_eqb (toLowerCase (trim raw)) (u16 "true"));
      [now intros [= <-]|].
    destruct (str_eqb (toLowerCase (trim raw)) (u16 "false"));
      [now intros [= <-]|discriminate].
  - unfold parse_d.
    destruct (startsWith_dquote (trim raw) && endsWith_dquote (trim raw));
      [destruct (JSON.parse (trim raw)) as [s|]|]; cbn [bind];
      try discriminate;
      match goal with
      | |- context [Date_ofString ?s] => destruct (Date_ofString s)
      end; try discriminate; now intros [= <-].
  - unfold parse_x. now intros [= <-].
Qed.



(** X5. A value that a parser returns is given its own alias back by
    [inferAlias], with one exception: the number parser may return [null],
    whose alias is x. *)
Theorem parser_alias (a : TypeAlias) (raw : jsstring) (v : value) :
  parser_of a raw = Ok v ->
  inferAlias v = Ok a \/ (a = AN /\ v = VNull /\ inferAlias v = Ok AX).
Proof.
  intros Hp. pose proof (parser_value a raw Hp) as Hv. revert Hp.
  destruct a; cbn [parser_of].
  - unfold parse_s.
    destruct (startsWith_dquote (trim raw) && endsWith_dquote (trim raw));
      [destruct (JSON.parse (trim raw))|]; try discriminate;
      intros [= <-]; now left.
  - unfold parse_n. destruct (str_eqb (trim raw) []);
      [intros [= <-]; right; now repeat split|].
    destruct (negb (Number_isFinite (Number_ofString (trim raw))));
      intros [= <-]; [right; now repeat split|now left].
  - unfold parse_b.
    destruct (str_eqb (toLowerCase (trim raw)) (u16 "true"));
      [intros [= <-]; now left|].
    destruct (str_eqb (toLowerCase (trim raw)) (u16 "false"));
      [intros [= <-]; now left|discriminate].
  - unfold parse_d.
    destruct (startsWith_dquote (trim raw) && endsWith_dquote (trim raw));
      [destruct (JSON.parse (trim raw)) as [s|]|]; cbn [bind];
      try discriminate;
      match goal with
      | |- context [Date_ofString ?s] => destruct (Date_ofString s)
      end; try discriminate; intros [= <-]; now left.
  - unfold parse_x. intros [= <-]. now left.
Qed.

End DecoderComposition.

Lemma decode_concatenation_witness :
  decode (u16 "a;n;1|" ++ [bar]) = decode (u16 "a;n;1|")
  /\ decode (u16 "a;n;1" ++ bar :: u16 "b;x;")
     = (r <- decode (u16 "a;n;1") ;;
        decode_loop (decode_rows (u16 "b;x;")) (r : object Reference.num)).
Proof.
  split.
  - exact (proj1 (proj2 (@decode_concatenation _ Reference.host
                           (u16 "a;n;1|") [] eq_refl))).
  - exact (proj1 (@decode_concatenation _ Reference.host
                    (u16 "a;n;1") (u16 "b;x;") eq_refl)).
Defined.


Lemma parser_alias_witness :
  inferAlias (VNull : value Reference.num) = Ok AN
  \/ (AN = AN /\ (VNull : value Reference.num) = VNull
      /\ inferAlias (VNull : value Reference.num) = Ok AX).
Proof.
  apply (@parser_alias _ Reference.host AN (u16 " ")).
  vm_compute. reflexivity.
Defined.

(** ** The schema validator: what it accepts and what it throws *)

Section SchemaFacts.

Context {number : Type} {host : Host number}.

Abbreviation value := (value number).
Abbreviation object := (object number).

Lemma alias_eqb_spec a b : reflect (a = b) (alias_eqb a b).
Proof. destruct a, b; constructor; congruence. Qed.

Lemma get_absent (raw : object) k :
  has_property raw k = false -> get raw k = VUndefined.
Proof.
  unfold has_property, get. destruct (lookup k (props raw)); [discriminate|].
  now intros ->.
Qed.

(** One step of the loop, by whether the field is accepted. *)
Lemma schema_loop_step (raw out : object) (entry : jsstring * SchemaValue)
  schema :
  (field_accepted raw entry
   /\ schema_loop raw (entry :: schema) out
      = schema_loop raw schema (set out (fst entry) (get raw (fst entry))))
  \/ (exists e, field_error raw entry e
                /\ schema_loop raw (entry :: schema) out = Throw e).
Proof.
  destruct entry as [k sv]. unfold field_accepted, field_error.
  cbn [schema_loop fst snd].
  destruct (normalizeSchemaValue sv) as [expected optional]. cbn [fst snd].
  destruct (has_property raw k) eqn:Hin; cbn [negb].
  - destruct (inferAlias (get raw k)) as [actual|e|m r] eqn:Ha; cbn [bind].
    + destruct (alias_eqb_spec actual expected) as [->|Hne]; cbn [negb].
      * left. now split.
      * right. eexists. split; [split; [exact Hne|reflexivity]|reflexivity].
    + right. exists e. now split.
    + exfalso. revert Ha. unfold inferAlias.
      repeat match goal with
             | |- context [if ?b then _ else _] => destruct b
             end; discriminate.
  - destruct optional.
    + left. split; [reflexivity|]. now rewrite (get_absent _ _ Hin).
    + right. eexists. split; [split; reflexivity|reflexivity].
Qed.

Lemma field_accepted_not_error (raw : object)
  (entry : jsstring * SchemaValue) e :
  field_accepted raw entry -> field_error raw entry e -> False.
Proof.
  unfold field_accepted, field_error.
  destruct (has_property raw (fst entry)).
  - intros ->. now intros [Hne _].
  - intros ->. now intros [Hf _].
Qed.

Lemma schema_loop_accepts (raw : object)
  (schema : list (jsstring * SchemaValue)) : forall out,
  Forall (field_accepted raw) schema ->
  schema_loop raw schema out
  = Ok (fold_left (fun o entry => set o (fst entry) (get raw (fst entry)))
                  schema out).
Proof.
  induction schema as [|entry schema IH]; intros out Hall; [reflexivity|].
  inversion Hall as [|? ? Hentry Hrest]; subst.
  destruct (schema_loop_step raw out entry schema) as [[_ ->]|(e & He & _)].
  - now apply IH.
  - destruct (field_accepted_not_error _ _ _ Hentry He).
Qed.

(** The loop ends with a record exactly when every field is accepted;
    otherwise it throws the error of the first field that is not. *)
Lemma schema_loop_outcome (raw : object)
  (schema : list (jsstring * SchemaValue)) : forall out,
  (Forall (field_accepted raw) schema
   /\ exists o, schema_loop raw schema out = Ok o)
  \/ (exists pre entry post e,
        schema = pre ++ entry :: post
        /\ Forall (field_accepted raw) pre
        /\ field_error raw entry e
        /\ schema_loop raw schema out = Throw e).
Proof.
  induction schema as [|entry schema IH]; intros out.
  - left. split; [constructor|]. now exists out.
  - destruct (schema_loop_step raw out entry schema)
      as [[Hacc Hstep]|(e & He & Hthrow)].
    + destruct (IH (set out (fst entry) (get raw (fst entry))))
        as [[Hall [o Ho]]|(pre & bad & post & e & -> & Hpre & Hbad & Hthrow)].
      * left. split; [now constructor|]. exists o. now rewrite Hstep.
      * right. exists (entry :: pre), bad, post, e.
        repeat split; try assumption; [now constructor|].
        now rewrite Hstep.
    + right. exists [], entry, schema, e. repeat split; auto.
Qed.

Lemma fold_set_entries (raw : object)
  (schema : list (jsstring * SchemaValue)) : forall out : object,
  fold_left (fun o entry => set o (fst entry) (get raw (fst entry))) schema out
  = fold_left (fun o k => set o k (get raw k)) (map fst schema) out.
Proof.
  induction schema as [|entry schema IH]; intros out; [reflexivity|].
  cbn [fold_left map]. apply IH.
Qed.

(** X6. For a schema whose field names are distinct and other than
    [__proto__], [decodeWithSchema] returns a record exactly when [decode]
    does and every schema field is accepted (absent from the decoded record
    and optional, or present with the declared alias). The record then has
    the fields of the schema, in the order of the schema, each with the
    value read from the decoded record, [undefined] for an absent one. *)
Theorem decodeWithSchema_accepts (str : jsstring)
  (schema : list (jsstring * SchemaValue)) (out : object) :
  NoDup (map fst schema) -> ~ In proto_key (map fst schema) ->
  decodeWithSchema str schema = Ok out
  <-> exists raw,
        decode str = Ok raw
        /\ Forall (field_accepted raw) schema
        /\ out = record (projected raw schema).
Proof.
  intros Hnd Hproto.
  assert (Hshape : forall raw : object,
            fold_left (fun o entry => set o (fst entry) (get raw (fst entry)))
                      schema empty_object
            = record (projected raw schema)).
  { intros raw. rewrite fold_set_entries. unfold empty_object.
    rewrite fold_set_fresh; [|exact Hnd|].
    - unfold record, projected. cbn [app]. now rewrite map_map.
    - intros k Hk. split; [|reflexivity].
      apply str_eqb_neq. intros ->. contradiction. }
  unfold decodeWithSchema. split.
  - destruct (decode str) as [raw| |]; cbn [bind]; try discriminate.
    intros Hout. exists raw. split; [reflexivity|].
    destruct (schema_loop_outcome raw schema empty_object)
      as [[Hall _]|(pre & bad & post & e & _ & _ & _ & Hthrow)].
    + split; [exact Hall|].
      rewrite (schema_loop_accepts _ Hall), Hshape in Hout.
      now injection Hout.
    + rewrite Hthrow in Hout. discriminate.
  - intros (raw & -> & Hall & ->). cbn [bind].
    now rewrite (schema_loop_accepts _ Hall), Hshape.
Qed.

(** X7. An error of [decodeWithSchema] is an error of [decode], or the error
    of the first schema field that is not accepted: a missing-key error for
    a required field that the [in] test does not find, a type mismatch
    naming the declared and the inferred alias, or the unsupported-type error
    of [inferAlias]. *)
Theorem decodeWithSchema_error (str : jsstring)
  (schema : list (jsstring * SchemaValue)) (e : error) :
  decodeWithSchema str schema = Throw e ->
  decode str = (Throw e : outcome object)
  \/ exists (raw : object) pre entry post,
       decode str = Ok raw
       /\ schema = pre ++ entry :: post
       /\ Forall (field_accepted raw) pre
       /\ field_error raw entry e.
Proof.
  unfold decodeWithSchema.
  destruct (decode str) as [raw|e'|]; cbn [bind]; try discriminate.
  - intros Hthrow. right.
    destruct (schema_loop_outcome raw schema empty_object)
      as [[_ [o Ho]]|(pre & bad & post & e' & Hs & Hpre & Hbad & Hthrow')].
    + rewrite Ho in Hthrow. discriminate.
    + rewrite Hthrow' in Hthrow. injection Hthrow as <-.
      now exists raw, pre, bad, post.
  - intros [= <-]. now left.
Qed.

End SchemaFacts.

Lemma decodeWithSchema_accepts_witness :
  decodeWithSchema (u16 "a;n;1|c;b;true")
    [(u16 "b", Described AS (Some true)); (u16 "a", Bare AN)]
  = Ok (record [(u16 "b", VUndefined); (u16 "a", VNumber (Reference.Int 1))]).
Proof.
  apply (proj2 (@decodeWithSchema_accepts _ Reference.host
                  (u16 "a;n;1|c;b;true")
                  [(u16 "b", Described AS (Some true)); (u16 "a", Bare AN)]
                  _
                  ltac:(repeat constructor; simpl; intuition discriminate)
                  ltac:(simpl; intuition discriminate))).
  exists (record [(u16 "a", VNumber (Reference.Int 1));
                  (u16 "c", VBoolean true)]).
  split; [vm_compute; reflexivity|].
  split; [|vm_compute; reflexivity].
  repeat constructor; vm_compute; reflexivity.
Defined.

Lemma decodeWithSchema_error_witness :
  decode (u16 "a;s;x") = (Throw (TypeMismatch (u16 "a") AN AS)
                          : outcome (object Reference.num))
  \/ exists (raw : object Reference.num) pre entry post,
       decode (u16 "a;s;x") = Ok raw
       /\ [(u16 "a", Bare AN)] = pre ++ entry :: post
       /\ Forall (field_accepted raw) pre
       /\ field_error raw entry (TypeMismatch (u16 "a") AN AS).
Proof.
  apply (@decodeWithSchema_error _ Reference.host).
  vm_compute. reflexivity.
Defined.

(** ** The encoder: errors, omitted fields and non-finite numbers *)

Section EncoderFurther.

Context {number : Type} {host : Host number}.

Abbreviation value := (value number).
Abbreviation object := (object number).

(** One iteration of the loop: a value that [encode] accepts lets the loop
    go on, any other value throws its error. *)
Lemma encode_loop_cases (obj : object) key keys rows :
  (encodable (get obj key) = true
   /\ exists rows', encode_loop obj (key :: keys) rows
                    = encode_loop obj keys rows')
  \/ (encodable (get obj key) = false
      /\ exists e, value_error (get obj key) e
                   /\ encode_loop obj (key :: keys) rows = Throw e).
Proof.
  cbn [encode_loop].
  destruct (get obj key) as [| |s|n|b|[t|]|[|f]]; cbn;
    try (left; split; [reflexivity|eauto]; fail);
    try (right; split; [reflexivity|eauto]; fail).
  left. split; [reflexivity|]. destruct (Number_isFinite n); cbn; eauto.
Qed.

Lemma encode_loop_outcome (obj : object) keys : forall rows,
  (forallb (fun k => encodable (get obj k)) keys = true
   /\ exists rows', encode_loop obj keys rows = Ok rows')
  \/ (exists k e, In k keys /\ value_error (get obj k) e
                  /\ encode_loop obj keys rows = Throw e).
Proof.
  induction keys as [|key keys IH]; intros rows.
  - left. split; [reflexivity|now exists rows].
  - destruct (encode_loop_cases obj key keys rows)
      as [[Henc [rows' Hstep]]|[Henc (e & He & Hthrow)]].
    + destruct (IH rows') as [[Hall [rs Hrs]]|(k & e & Hk & He & Hthrow)].
      * left. cbn [forallb]. rewrite Henc, Hall. split; [reflexivity|].
        exists rs. now rewrite Hstep.
      * right. exists k, e. repeat split; auto; [now right|].
        now rewrite Hstep.
    + right. exists key, e. repeat split; auto. now left.
Qed.

(** X8. [encode] returns a string exactly when its argument is a plain
    object none of whose values is an invalid date or a built-in object.
    Otherwise it throws: the plain-object error, the range error of
    [toISOString] on an invalid date, or the unsupported-type error of
    [inferAlias]. The expected-date error of [encodeValue] is never thrown
    by [encode]. *)
Theorem encode_outcome (obj : object) :
  ((exists doc, encode obj = Ok doc)
   <-> isPlainObject obj = true
       /\ forall k, In k (Object_keys obj) -> encodable (get obj k) = true)
  /\ (forall e, encode obj = Throw e ->
      (isPlainObject obj = false /\ e = NotPlainObject)
      \/ exists k, In k (Object_keys obj) /\ value_error (get obj k) e)
  /\ (forall key, encode obj <> Throw (ExpectedDate key)).
Proof.
  assert (Hsort : forall k, In k (sort (Object_keys obj))
                            <-> In k (Object_keys obj)).
  { intros k. split; apply Permutation_in;
      [apply Permutation_sym|]; apply sort_perm. }
  assert (Herr : forall e, encode obj = Throw e ->
            (isPlainObject obj = false /\ e = NotPlainObject)
            \/ exists k, In k (Object_keys obj) /\ value_error (get obj k) e).
  { intros e. unfold encode, encode_rows.
    destruct (isPlainObject obj); cbn [negb]; [|intros [= <-]; now left].
    destruct (encode_loop_outcome obj (sort (Object_keys obj)) [])
      as [[_ [rows ->]]|(k & e' & Hk & He & ->)]; cbn [bind];
      [discriminate|].
    intros [= <-]. right. exists k. split; [now apply Hsort|exact He]. }
  split; [|split; [exact Herr|]].
  - unfold encode, encode_rows.
    destruct (isPlainObject obj); cbn [negb];
      [|split; [intros [doc Hdoc]; discriminate|intros [H _]; discriminate]].
    destruct (encode_loop_outcome obj (sort (Object_keys obj)) [])
      as [[Hall [rows ->]]|(k & e & Hk & He & ->)]; cbn [bind].
    + split; [intros _|eauto]. split; [reflexivity|].
      intros k Hk. rewrite forallb_forall in Hall. now apply Hall, Hsort.
    + split; [intros [doc Hdoc]; discriminate|].
      intros [_ Hall]. apply Hsort in Hk. specialize (Hall k Hk).
      destruct (get obj k) as [| |s|n|b|[t|]|b]; now cbn in *.
  - intros key Hthrow. destruct (Herr _ Hthrow) as [[_ He]|(k & _ & He)];
      [discriminate|].
    destruct (get obj k) as [| |s|n|b|[t|]|b]; cbn in He;
      try contradiction; discriminate.
Qed.

Lemma lookup_middle k k' (v : value) l1 l2 :
  k' <> k -> lookup k' (l1 ++ (k, v) :: l2) = lookup k' (l1 ++ l2).
Proof.
  intros Hne. induction l1 as [|[k0 v0] l1 IH]; cbn [app lookup].
  - apply str_eqb_neq in Hne. now rewrite Hne.
  - now rewrite IH.
Qed.

Lemma encode_loop_insert_undefined (obj : object) k ks : forall rows,
  get obj k = VUndefined ->
  encode_loop obj (insert k ks) rows = encode_loop obj ks rows.
Proof.
  intros rows Hk. revert rows.
  assert (Hskip : forall keys rows,
            encode_loop obj (k :: keys) rows = encode_loop obj keys rows)
    by (intros keys rows; cbn [encode_loop]; now rewrite Hk).
  induction ks as [|h t IH]; intros rows; cbn [insert]; [apply Hskip|].
  destruct (str_leb k h); [apply Hskip|].
  cbn [encode_loop].
  destruct (is_undefined (get obj h)); [apply IH|].
  destruct (inferAlias (get obj h)) as [a| |]; cbn [bind]; try reflexivity.
  destruct (encodeValue a h (get obj h)); cbn [bind]; try reflexivity.
  apply IH.
Qed.

(** X9. A field whose value is [undefined] does not show in the encoding:
    the record with the field and the record without it have the same
    encoding. *)
Theorem encode_omits_undefined (l1 l2 : list (jsstring * value)) (k : jsstring) :
  NoDup (map fst (l1 ++ (k, VUndefined) :: l2)) ->
  encode (record (l1 ++ (k, VUndefined) :: l2)) = encode (record (l1 ++ l2)).
Proof.
  intros Hnd.
  assert (Hkeys : sort (map fst (l1 ++ (k, VUndefined) :: l2))
                  = insert k (sort (map fst (l1 ++ l2)))).
  { change (insert k (sort (map fst (l1 ++ l2))))
      with (sort (k :: map fst (l1 ++ l2))).
    apply sort_permutation_eq. rewrite !map_app. cbn [map fst].
    apply Permutation_sym, Permutation_middle. }
  assert (Hk : get (record (l1 ++ (k, VUndefined) :: l2)) k = VUndefined).
  { unfold record. apply get_own; [exact Hnd|].
    apply in_or_app. right. now left. }
  assert (Hnotin : ~ In k (map fst (l1 ++ l2))).
  { rewrite map_app in *. cbn [map fst] in Hnd.
    now apply NoDup_remove_2 in Hnd. }
  unfold encode, encode_rows, Object_keys. cbn [record props prototype
    isPlainObject negb].
  rewrite Hkeys, (encode_loop_insert_undefined _ _ _ _ Hk).
  rewrite (encode_loop_ext
             (Obj (l1 ++ (k, VUndefined) :: l2) ObjectPrototype)
             (Obj (l1 ++ l2) ObjectPrototype)); [reflexivity|].
  intros k' Hk'. unfold get. cbn [props prototype].
  rewrite lookup_middle; [reflexivity|].
  intros ->. apply Hnotin.
  eapply Permutation_in; [apply Permutation_sym, sort_perm|exact Hk'].
Qed.

Lemma encode_loop_similar (o o' : object) keys : forall rows,
  (forall k, In k keys -> same_or_nonfinite (get o k) (get o' k)) ->
  encode_loop o keys rows = encode_loop o' keys rows.
Proof.
  induction keys as [|key keys IH]; intros rows Hsim; [reflexivity|].
  assert (Hrest : forall k, In k keys -> same_or_nonfinite (get o k) (get o' k))
    by (intros k Hk; apply Hsim; now right).
  cbn [encode_loop].
  destruct (Hsim key (or_introl eq_refl))
    as [<-|(n & m & -> & -> & Hn & Hm)].
  - destruct (is_undefined (get o key)); [now apply IH|].
    destruct (inferAlias (get o key)) as [a| |]; cbn [bind]; try reflexivity.
    destruct (encodeValue a key (get o key)); cbn [bind]; try reflexivity.
    now apply IH.
  - cbn. rewrite Hn, Hm. cbn. now apply IH.
Qed.

(** X10. The encoding does not tell non-finite numbers apart: replacing the
    non-finite number of a field by another non-finite number (NaN, an
    infinity) leaves the encoding unchanged. *)
Theorem encode_nonfinite_conflated (l1 l2 : list (jsstring * value))
  (k : jsstring) (n m : number) :
  Number_isFinite n = false -> Number_isFinite m = false ->
  encode (record (l1 ++ (k, VNumber n) :: l2))
  = encode (record (l1 ++ (k, VNumber m) :: l2)).
Proof.
  intros Hn Hm. unfold encode, encode_rows, Object_keys.
  cbn [record props prototype isPlainObject negb].
  replace (map fst (l1 ++ (k, VNumber m) :: l2))
    with (map fst (l1 ++ (k, VNumber n) :: l2))
    by (rewrite !map_app; reflexivity).
  rewrite (encode_loop_similar
             (Obj (l1 ++ (k, VNumber n) :: l2) ObjectPrototype)
             (Obj (l1 ++ (k, VNumber m) :: l2) ObjectPrototype));
    [reflexivity|].
  intros k' _. unfold get. cbn [props prototype].
  induction l1 as [|[k0 v0] l1 IH]; cbn [app lookup].
  - destruct (str_eqb k' k); [|now left].
    right. now exists n, m.
  - destruct (str_eqb k' k0); [now left|exact IH].
Qed.

End EncoderFurther.

(** ** The edge-case policy of the encoder *)

Section EdgeCasePolicy.

Context {number : Type} {host : Host number}.

Abbreviation value := (value number).
Abbreviation object := (object number).

(** The rows of the loop, one for each key whose value is not [undefined],
    in the order of the keys, each following the policy. *)
Lemma encode_loop_policy (obj : object) keys : forall rows,
  encode_loop obj keys [] = Ok rows ->
  Forall2 (fun k row => policy_row k (get obj k) row)
    (filter (fun k => negb (is_undefined (get obj k))) keys) rows.
Proof.
  induction keys as [|key keys IH]; intros rows; cbn [encode_loop filter].
  - intros [= <-]. constructor.
  - destruct (is_undefined (get obj key)) eqn:Hu; cbn [negb]; [apply IH|].
    destruct (inferAlias (get obj key)) as [alias| |] eqn:Ha;
      cbn [bind]; try discriminate.
    destruct (encodeValue alias key (get obj key)) as [raw| |] eqn:He;
      cbn [bind]; try discriminate.
    rewrite encode_loop_acc.
    destruct (encode_loop obj keys []) as [rs| |]; cbn [bind];
      try discriminate.
    intros [= <-]. cbn [app]. constructor; [|now apply IH].
    split; [now exists alias, raw|]. split.
    + intros Hv. rewrite Hv in Ha, He. cbn in Ha. injection Ha as <-.
      cbn in He. injection He as <-. reflexivity.
    + intros n Hv Hn. rewrite Hv in Ha, He. cbn in Ha. injection Ha as <-.
      cbn in He. rewrite Hn in He. injection He as <-. reflexivity.
Qed.

Lemma value_error_not_edge (v : value) e :
  value_error v e -> edge_state v = false.
Proof. destruct v as [| |s|n|b|[t|]|b]; cbn; easy. Qed.

Lemma edge_state_encodable (v : value) :
  edge_state v = true -> encodable v = true.
Proof. destruct v as [| |s|n|b|[t|]|b]; cbn; easy. Qed.

(** C5. The edge-case policy of [encode], for every plain object, whatever
    its other values. The document [encode] returns is the join of its rows;
    there is one row for each key whose value is not [undefined], in sorted
    key order, and none for a key whose value is [undefined]; the row of a
    key whose value is a non-finite number is exactly [key;n;], with alias n
    and empty text, and the row of a key whose value is [null] is exactly
    [key;x;]. None of the three states is an error: an error of [encode]
    is the error of a key whose value is in none of them, [encode] succeeds
    as soon as the values in none of the three states are encodable, and an
    object whose values are all in one of them is encoded to exactly the
    policy's rows. *)
Theorem encode_edge_cases (obj : object) :
  isPlainObject obj = true ->
  (forall doc, encode obj = Ok doc ->
     exists rows,
       doc = join bar rows
       /\ Forall2 (fun k row => policy_row k (get obj k) row)
                  (encoded_keys obj) rows)
  /\ (forall k, In k (encoded_keys obj)
                <-> In k (Object_keys obj) /\ get obj k <> VUndefined)
  /\ (forall e, encode obj = Throw e ->
        exists k, In k (Object_keys obj) /\ edge_state (get obj k) = false
                  /\ value_error (get obj k) e)
  /\ ((forall k, In k (Object_keys obj) -> edge_state (get obj k) = false ->
                 encodable (get obj k) = true) ->
      exists doc, encode obj = Ok doc)
  /\ ((forall k, In k (Object_keys obj) -> edge_state (get obj k) = true) ->
      encode obj
      = Ok (join bar (flat_map (fun k => edge_rows k (get obj k))
                               (sort (Object_keys obj))))).
Proof.
  intros Hplain.
  assert (Hsort : forall k, In k (sort (Object_keys obj))
                            <-> In k (Object_keys obj)).
  { intros k. split; apply Permutation_in;
      [apply Permutation_sym|]; apply sort_perm. }
  unfold encode, encode_rows. rewrite Hplain. cbn [negb].
  split; [|split; [|split; [|split]]].
  - intros doc.
    destruct (encode_loop obj (sort (Object_keys obj)) []) as [rows| |] eqn:Hl;
      cbn [bind]; try discriminate.
    intros [= <-]. exists rows. split; [reflexivity|].
    now apply encode_loop_policy.
  - intros k. unfold encoded_keys. rewrite filter_In, Hsort.
    split; intros [Hk Hv]; (split; [exact Hk|]).
    + intros Hu. rewrite Hu in Hv. discriminate.
    + destruct (get obj k); try reflexivity. now destruct Hv.
  - intros e.
    destruct (encode_loop_outcome obj (sort (Object_keys obj)) [])
      as [[_ [rows ->]]|(k & e' & Hk & He & ->)]; cbn [bind];
      [discriminate|].
    intros [= <-]. exists k. split; [now apply Hsort|].
    split; [now apply (value_error_not_edge _ e')|exact He].
  - intros Hother.
    destruct (encode_loop_outcome obj (sort (Object_keys obj)) [])
      as [[_ [rows ->]]|(k & e' & Hk & He & _)]; cbn [bind];
      [now exists (join bar rows)|].
    apply Hsort in Hk.
    pose proof (Hother k Hk (value_error_not_edge _ _ He)) as Henc.
    destruct (get obj k) as [| |s|n|b|[t|]|b]; cbn in He, Henc;
      try contradiction; discriminate.
  - intros Hedge. rewrite encode_loop_edge; [reflexivity|].
    intros k Hk. apply Hedge. now apply Hsort.
Qed.

End EdgeCasePolicy.

Lemma encode_edge_cases_witness :
  exists rows,
    u16 "b;n;|c;x;|d;b;true|e;n;27" = join bar rows
    /\ Forall2
         (fun k row =>
            policy_row k
              (get (record [(u16 "e", VNumber (Reference.Int 27));
                            (u16 "c", VNull);
                            (u16 "b", VNumber Reference.NaN);
                            (u16 "d", VBoolean true);
                            (u16 "a", VUndefined)]) k) row)
         (encoded_keys (record [(u16 "e", VNumber (Reference.Int 27));
                                (u16 "c", VNull);
                                (u16 "b", VNumber Reference.NaN);
                                (u16 "d", VBoolean true);
                                (u16 "a", VUndefined)]))
         rows.
Proof.
  apply (proj1 (@encode_edge_cases _ Reference.host
                  (record [(u16 "e", VNumber (Reference.Int 27));
                           (u16 "c", VNull);
                           (u16 "b", VNumber Reference.NaN);
                           (u16 "d", VBoolean true);
                           (u16 "a", VUndefined)]) eq_refl)).
  vm_compute. reflexivity.
Defined.

(** ** Encoding, then decoding *)

Section EncodeDecode.

Context {number : Type} {host : Host number}.

Abbreviation value := (value number).
Abbreviation object := (object number).

Lemma canonical_lookup (l : list (jsstring * value)) k :
  NoDup (map fst l) ->
  lookup k (props (canonical l)) = lookup k (props (decoded l)).
Proof.
  intros Hnd. unfold canonical, decoded. cbn [props record].
  rewrite lookup_map_keys, lookup_map_values.
  destruct (mem k (sort (map fst l))) eqn:Hmem.
  - apply mem_In in Hmem.
    apply (Permutation_in _ (Permutation_sym (sort_perm (map fst l)))) in Hmem.
    destruct (key_entry k l Hmem) as [v Hv].
    unfold record. erewrite get_own by eassumption.
    erewrite lookup_in by eassumption. reflexivity.
  - assert (Hnot : ~ In k (map fst l)).
    { intros Hin. apply (Permutation_in _ (sort_perm (map fst l))) in Hin.
      apply mem_In in Hin. congruence. }
    apply lookup_none in Hnot. now rewrite Hnot.
Qed.

Lemma canonical_get (l : list (jsstring * value)) k :
  NoDup (map fst l) -> get (canonical l) k = get (decoded l) k.
Proof.
  intros Hnd. unfold get. now rewrite canonical_lookup by assumption.
Qed.

(** The encoding of a record with plain keys and faithfully printed values
    is decoded to the canonical record. *)
Lemma encode_decode_record (l : list (jsstring * value)) :
  NoDup (map fst l) ->
  (forall k v, In (k, v) l ->
     plain_key k = true /\ supported v = true /\ host_faithful v) ->
  exists doc, encode (record l) = Ok doc /\ decode doc = Ok (canonical l).
Proof.
  intros Hnd Hl.
  assert (Hperm : Permutation (map fst l) (sort (map fst l)))
    by apply sort_perm.
  assert (Hkeys : forall k, In k (sort (map fst l)) ->
            plain_key k = true /\ supported (get (record l) k) = true
            /\ host_faithful (get (record l) k)).
  { intros k Hk.
    apply (Permutation_in _ (Permutation_sym Hperm)) in Hk.
    destruct (key_entry k l Hk) as [v Hv].
    unfold record. erewrite get_own by eassumption. now apply Hl. }
  destruct (encode_loop_reads_back (record l) _ Hkeys)
    as (rows & Hrows & Hall).
  exists (join bar rows). split.
  - unfold encode, encode_rows, Object_keys.
    change (props (record l)) with l.
    change (isPlainObject (record l)) with true. cbn [negb].
    now rewrite Hrows.
  - unfold decode.
    rewrite (decode_rows_join (Forall2_rows Hall)).
    rewrite (decode_loop_reads_back Hall). f_equal.
    unfold empty_object, canonical, record.
    rewrite fold_set_fresh; [reflexivity| |].
    + eapply Permutation_NoDup; [exact Hperm|exact Hnd].
    + intros k Hk. destruct (Hkeys k Hk) as [Hplain _].
      destruct (plain_key_inv k Hplain) as (_ & _ & Hp & _).
      now split.
Qed.

(** X11. On records with plain keys and faithfully printed values, [encode]
    is injective up to non-finite numbers: two such records with the same
    encoding have the same fields, with the same values once every
    non-finite number is read as [null]. *)
Theorem encode_injective (l l' : list (jsstring * value)) :
  NoDup (map fst l) -> NoDup (map fst l') ->
  (forall k v, In (k, v) l ->
     plain_key k = true /\ supported v = true /\ host_faithful v) ->
  (forall k v, In (k, v) l' ->
     plain_key k = true /\ supported v = true /\ host_faithful v) ->
  encode (record l) = encode (record l') ->
  deep_equal (decoded l) (decoded l').
Proof.
  intros Hnd Hnd' Hl Hl' Heq.
  destruct (encode_decode_record l Hnd Hl) as (doc & Hdoc & Hdec).
  destruct (encode_decode_record l' Hnd' Hl') as (doc' & Hdoc' & Hdec').
  rewrite Hdoc, Hdoc' in Heq. injection Heq as <-.
  assert (Hcanon : canonical l = canonical l') by congruence.
  split; [reflexivity|].
  intros k. rewrite <- !canonical_lookup by assumption.
  now rewrite Hcanon.
Qed.

(** X12. A schema read off a record accepts its encoding. Let R be a record
    with plain keys and faithfully printed values, and S a schema with
    distinct field names other than [__proto__], each of which either names
    a field of R and declares the alias of its value (x for a non-finite
    number), or is optional, names no field of R and no member of
    [Object.prototype]. Then [decodeWithSchema (encode R) S] returns the
    fields of S with the values of R, [null] for a non-finite number and
    [undefined] for an absent field. *)
Theorem decodeWithSchema_encode (l : list (jsstring * value))
  (schema : list (jsstring * SchemaValue)) :
  NoDup (map fst l) ->
  (forall k v, In (k, v) l ->
     plain_key k = true /\ supported v = true /\ host_faithful v) ->
  NoDup (map fst schema) -> ~ In proto_key (map fst schema) ->
  (forall k sv, In (k, sv) schema ->
     (exists v, In (k, v) l
                /\ inferAlias (nullify v) = Ok (fst (normalizeSchemaValue sv)))
     \/ (~ In k (map fst l) /\ mem k Object_prototype_keys = false
         /\ snd (normalizeSchemaValue sv) = true)) ->
  exists doc,
    encode (record l) = Ok doc
    /\ decodeWithSchema doc schema = Ok (record (projected (decoded l) schema)).
Proof.
  intros Hnd Hl Hsnd Hproto Hschema.
  destruct (encode_decode_record l Hnd Hl) as (doc & Hdoc & Hdec).
  exists doc. split; [exact Hdoc|].
  unfold decodeWithSchema. rewrite Hdec. cbn [bind].
  assert (Hall : Forall (field_accepted (canonical l)) schema).
  { apply Forall_forall. intros [k sv] Hin. unfold field_accepted.
    cbn [fst snd]. unfold has_property.
    rewrite canonical_get, canonical_lookup by assumption.
    unfold get, decoded. cbn [props record prototype].
    rewrite lookup_map_values.
    destruct (Hschema k sv Hin) as [(v & Hv & Ha)|(Hnot & Hmem & Hopt)].
    - erewrite lookup_in by eassumption. exact Ha.
    - apply lookup_none in Hnot. rewrite Hnot. cbn [option_map inherited_keys].
      change (mem k (inherited_keys (prototype (canonical l))))
        with (mem k Object_prototype_keys).
      rewrite Hmem. exact Hopt. }
  rewrite (schema_loop_accepts _ Hall), fold_set_entries.
  unfold empty_object. rewrite fold_set_fresh; [|exact Hsnd|].
  - f_equal. unfold record, projected. cbn [app]. rewrite map_map.
    f_equal. apply map_ext. intros [k sv]. cbn [fst].
    now rewrite canonical_get by assumption.
  - intros k Hk. split; [|reflexivity].
    apply str_eqb_neq. intros ->. contradiction.
Qed.

End EncodeDecode.

Lemma encode_outcome_witness :
  (exists doc,
     encode (record [(u16 "a", VBoolean true);
                     (u16 "b", VUndefined : value Reference.num)]) = Ok doc)
  /\ exists k,
       In k [u16 "d"]
       /\ value_error (get (record [(u16 "d", VDate InvalidDate
                                               : value Reference.num)]) k)
            RangeError.
Proof.
  split.
  - apply (proj1 (@encode_outcome _ Reference.host _)).
    split; [reflexivity|].
    intros k [<-|[<-|[]]]; reflexivity.
  - destruct (proj1 (proj2 (@encode_outcome _ Reference.host
                              (record [(u16 "d", VDate InvalidDate)])))
                RangeError ltac:(vm_compute; reflexivity))
      as [[Hplain _]|Hk]; [discriminate Hplain|exact Hk].
Defined.

Lemma encode_omits_undefined_witness :
  encode (record [(u16 "a", VNumber (Reference.Int 1)); (u16 "b", VUndefined)])
  = encode (record [(u16 "a", VNumber (Reference.Int 1))]).
Proof.
  apply (@encode_omits_undefined _ Reference.host
           [(u16 "a", VNumber (Reference.Int 1))] [] (u16 "b")).
  repeat constructor; simpl; intuition discriminate.
Defined.

Lemma encode_nonfinite_conflated_witness :
  encode (record [(u16 "a", VNumber Reference.NaN)])
  = encode (record [(u16 "a", VNumber Reference.PosInfinity)]).
Proof.
  apply (@encode_nonfinite_conflated _ Reference.host [] [] (u16 "a"));
    reflexivity.
Defined.

Lemma encode_injective_witness :
  deep_equal (decoded [(u16 "a", VNumber Reference.NaN)])
             (decoded [(u16 "a", VNumber Reference.PosInfinity)]).
Proof.
  apply (@encode_injective _ Reference.host).
  - repeat constructor; simpl; tauto.
  - repeat constructor; simpl; tauto.
  - intros k v [[= <- <-]|[]].
    split; [vm_compute; reflexivity|]. split; [reflexivity|].
    intros H. vm_compute in H. discriminate H.
  - intros k v [[= <- <-]|[]].
    split; [vm_compute; reflexivity|]. split; [reflexivity|].
    intros H. vm_compute in H. discriminate H.
  - vm_compute. reflexivity.
Defined.

Lemma decodeWithSchema_encode_witness :
  exists doc,
    encode (record [(u16 "a", VNumber (Reference.Int 1));
                    (u16 "s", VNumber Reference.NaN)]) = Ok doc
    /\ decodeWithSchema doc [(u16 "s", Bare AX);
                             (u16 "b", Described AS (Some true));
                             (u16 "a", Bare AN)]
       = Ok (record [(u16 "s", VNull); (u16 "b", VUndefined);
                     (u16 "a", VNumber (Reference.Int 1))]).
Proof.
  apply (@decodeWithSchema_encode _ Reference.host
           [(u16 "a", VNumber (Reference.Int 1));
            (u16 "s", VNumber Reference.NaN)]
           [(u16 "s", Bare AX); (u16 "b", Described AS (Some true));
            (u16 "a", Bare AN)]).
  - repeat constructor; simpl; intuition discriminate.
  - intros k v [[= <- <-]|[[= <- <-]|[]]];
      (split; [vm_compute; reflexivity|split; [reflexivity|]]).
    + intros _. vm_compute. repeat split; try reflexivity. discriminate.
    + intros H. vm_compute in H. discriminate H.
  - repeat constructor; simpl; intuition discriminate.
  - simpl. intuition discriminate.
  - intros k sv [[= <- <-]|[[= <- <-]|[[= <- <-]|[]]]].
    + left. exists (VNumber Reference.NaN). split; [simpl; tauto|reflexivity].
    + right. split; [simpl; intuition discriminate|].
      split; reflexivity.
    + left. exists (VNumber (Reference.Int 1)).
      split; [simpl; tauto|reflexivity].
Defined.

(** ** The earlier codec against the current one *)

Section LegacyFacts.

Context {number : Type} {host : Host number}.

Abbreviation value := (value number).
Abbreviation object := (object number).

Lemma shared_return (A : Type) (m : outcome A) a :
  Legacy.shared m = Legacy.Return a -> m = Ok a.
Proof. destruct m; simpl; congruence. Qed.

(** A value that an earlier parser returns is the value of the current
    parser, except for a number row with a blank text. *)
Lemma legacy_parser_agrees a raw (v : value) :
  Legacy.parser_of a raw = Legacy.Return v ->
  parser_of (Legacy.current a) raw = Ok v
  \/ (a = Legacy.LN /\ str_eqb (trim raw) [] = true).
Proof.
  destruct a; cbn [Legacy.parser_of Legacy.current parser_of];
    try (intros H; left; now apply shared_return).
  unfold Legacy.parse_n, parse_n.
  destruct (str_eqb (trim raw) []); [now right|].
  destruct (negb (Number_isFinite (Number_ofString (trim raw))));
    [discriminate|].
  intros [= <-]. now left.
Qed.

Lemma legacy_decode_row_agrees (r r' : object) row :
  Legacy.decode_row r row = Legacy.Return r' ->
  Legacy.blank_number_row row = false ->
  decode_row r row = Ok r'.
Proof.
  unfold Legacy.decode_row, Legacy.blank_number_row, decode_row.
  destruct (Tokenizer.splitOutsideQuotes row semicolon)
    as [|keyRaw [|typeRaw [|valueRaw [|extra parts]]]]; try discriminate.
  destruct (str_eqb (trim keyRaw) []); [discriminate|].
  unfold Legacy.ALIAS_TO_PARSER, ALIAS_TO_PARSER.
  assert (Hown : forall a,
            Legacy.andThen (Legacy.parser_of a valueRaw)
              (fun v => Legacy.Return (set r (trim keyRaw) v))
            = Legacy.Return r' ->
            (a = Legacy.LN -> str_eqb (trim valueRaw) [] = false) ->
            (v <- parser_of (Legacy.current a) valueRaw ;;
             Ok (set r (trim keyRaw) v)) = Ok r').
  { intros a Hlegacy Hblank.
    destruct (Legacy.parser_of a valueRaw) as [v| |] eqn:Hp;
      try discriminate.
    destruct (legacy_parser_agrees a valueRaw Hp) as [->|[Ha Hb]].
    - simpl in *. congruence.
    - rewrite (Hblank Ha) in Hb. discriminate. }
  destruct (str_eqb (trim typeRaw) [alias_unit AS]);
    [intros H _; now apply (Hown Legacy.LS)|].
  destruct (str_eqb (trim typeRaw) [alias_unit AN]);
    [intros H Hb; now apply (Hown Legacy.LN)|].
  destruct (str_eqb (trim typeRaw) [alias_unit AB]);
    [intros H _; now apply (Hown Legacy.LB)|].
  destruct (str_eqb (trim typeRaw) [alias_unit AD]);
    [intros H _; now apply (Hown Legacy.LD)|].
  destruct (mem (trim typeRaw) Object_prototype_keys); discriminate.
Qed.

Lemma legacy_decode_loop_agrees rows : forall r o : object,
  Legacy.decode_loop rows r = Legacy.Return o ->
  forallb (fun row => negb (Legacy.blank_number_row row)) rows = true ->
  decode_loop rows r = Ok o.
Proof.
  induction rows as [|row rows IH]; intros r o;
    cbn [Legacy.decode_loop decode_loop forallb].
  - now intros [= <-].
  - destruct (Legacy.decode_row r row) as [r'| |] eqn:Hrow; simpl;
      try discriminate.
    intros Ho Hblank. apply andb_true_iff in Hblank as [Hb Hbs].
    apply negb_true_iff in Hb.
    rewrite (legacy_decode_row_agrees _ _ Hrow Hb). cbn [bind].
    now apply IH.
Qed.

(** X13. The current decoder extends the earlier one: when
    [decodeFlatPayload] returns a record for a document none of whose number
    rows has a blank text, [decode] returns the same record. (On a blank
    number text the earlier decoder returns [Number('')] where the current
    one returns [null].) *)
Theorem decode_extends_decodeFlatPayload (str : jsstring) (o : object) :
  Legacy.decodeFlatPayload str = Legacy.Return o ->
  forallb (fun row => negb (Legacy.blank_number_row row)) (decode_rows str)
  = true ->
  decode str = Ok o.
Proof. unfold Legacy.decodeFlatPayload, decode. apply legacy_decode_loop_agrees. Qed.

(** One iteration of the earlier encoder, by whether it accepts the value;
    an accepted value is encoded as by the current encoder. *)
Lemma legacy_encode_step key (v : value) :
  (Legacy.strict_value v = true
   /\ exists a raw,
        Legacy.inferAlias v = Legacy.Return a
        /\ Legacy.encodeValue a key v = Legacy.Return raw
        /\ is_undefined v = false
        /\ inferAlias v = Ok (Legacy.current a)
        /\ encodeValue (Legacy.current a) key v = Ok raw)
  \/ (Legacy.strict_value v = false
      /\ exists e,
           Legacy.andThen (Legacy.inferAlias v)
             (fun a => Legacy.encodeValue a key v) = Legacy.Raise e).
Proof.
  destruct v as [| |s|n|b|[t|]|[|f]]; cbn [Legacy.strict_value];
    try (right; split; [reflexivity|]; eexists; reflexivity).
  - left. split; [reflexivity|]. exists Legacy.LS. eexists.
    repeat split; reflexivity.
  - destruct (Number_isFinite n) eqn:Hfin.
    + left. split; [reflexivity|]. exists Legacy.LN, (Number_toString n).
      repeat split; try reflexivity; cbn; now rewrite Hfin.
    + right. split; [reflexivity|]. exists (Legacy.NonFiniteNumber key).
      cbn. now rewrite Hfin.
  - left. split; [reflexivity|]. exists Legacy.LB. eexists.
    repeat split; reflexivity.
  - left. split; [reflexivity|]. exists Legacy.LD. eexists.
    repeat split; reflexivity.
Qed.

Lemma legacy_encode_loop_outcome (obj : object) keys : forall rows,
  (forallb (fun k => Legacy.strict_value (get obj k)) keys = true
   /\ exists rows', Legacy.encode_loop obj keys rows = Legacy.Return rows'
                    /\ encode_loop obj keys rows = Ok rows')
  \/ (forallb (fun k => Legacy.strict_value (get obj k)) keys = false
      /\ exists e, Legacy.encode_loop obj keys rows = Legacy.Raise e).
Proof.
  induction keys as [|key keys IH]; intros rows.
  - left. split; [reflexivity|]. now exists rows.
  - cbn [Legacy.encode_loop encode_loop forallb].
    destruct (legacy_encode_step key (get obj key))
      as [[Hs (a & raw & Ha & He & Hu & Ha' & He')]|[Hs (e & Hthrow)]];
      rewrite Hs; cbn [andb].
    + rewrite Ha. cbn [Legacy.andThen]. rewrite He. cbn [Legacy.andThen].
      rewrite Hu, Ha'. cbn [bind]. rewrite He'. cbn [bind]. apply IH.
    + right. split; [reflexivity|]. exists e.
      destruct (Legacy.inferAlias (get obj key)) as [a| |];
        cbn [Legacy.andThen] in *; try congruence.
      now rewrite Hthrow.
Qed.

(** X14. [encodeFlatPayload] returns a string exactly when its argument is a
    plain object all of whose values are strings, finite numbers, booleans
    or valid dates ([null], [undefined] and non-finite numbers are errors),
    and the string is then the one that [encode] returns. *)
Theorem encodeFlatPayload_strict (obj : object) :
  ((exists doc, Legacy.encodeFlatPayload obj = Legacy.Return doc)
   <-> isPlainObject obj = true
       /\ forall k, In k (Object_keys obj) ->
                    Legacy.strict_value (get obj k) = true)
  /\ (forall doc, Legacy.encodeFlatPayload obj = Legacy.Return doc ->
      encode obj = Ok doc).
Proof.
  assert (Hsort : forall k, In k (sort (Object_keys obj))
                            <-> In k (Object_keys obj)).
  { intros k. split; apply Permutation_in;
      [apply Permutation_sym|]; apply sort_perm. }
  unfold Legacy.encodeFlatPayload, encode, encode_rows.
  destruct (isPlainObject obj); cbn [negb].
  2:{ split; [|discriminate].
      split; [intros [doc Hdoc]; discriminate|intros [H _]; discriminate]. }
  destruct (legacy_encode_loop_outcome obj (sort (Object_keys obj)) [])
    as [[Hall (rows & -> & ->)]|[Hall (e & ->)]];
    cbn [Legacy.andThen bind].
  - split; [|now intros doc [= <-]].
    split; [intros _|eauto]. split; [reflexivity|].
    intros k Hk. rewrite forallb_forall in Hall. now apply Hall, Hsort.
  - split; [|discriminate].
    split; [intros [doc Hdoc]; discriminate|].
    intros [_ Hstrict]. exfalso.
    assert (Htrue : forallb (fun k => Legacy.strict_value (get obj k))
                      (sort (Object_keys obj)) = true).
    { apply forallb_forall. intros k Hk. now apply Hstrict, Hsort. }
    congruence.
Qed.

End LegacyFacts.

Lemma decode_extends_decodeFlatPayload_witness :
  decode (u16 "a;n;12|b;b;TRUE")
  = Ok (record [(u16 "a", VNumber (Reference.Int 12));
                (u16 "b", VBoolean true)]).
Proof.
  apply (@decode_extends_decodeFlatPayload _ Reference.host);
    vm_compute; reflexivity.
Defined.

Lemma encodeFlatPayload_strict_witness :
  encode (record [(u16 "a", VNumber (Reference.Int 12));
                  (u16 "b", VBoolean true)])
  = Ok (u16 "a;n;12|b;b;true").
Proof.
  apply (proj2 (@encodeFlatPayload_strict _ Reference.host _)).
  vm_compute. reflexivity.
Defined.

Section LegacyRoundTrip.

Context {number : Type} {host : Host number}.

Abbreviation value := (value number).
Abbreviation object := (object number).

Lemma parser_agrees_back a raw (v : value) :
  parser_of (Legacy.current a) raw = Ok v ->
  (a = Legacy.LN -> v <> VNull) ->
  Legacy.parser_of a raw = Legacy.Return v.
Proof.
  destruct a; cbn [Legacy.parser_of Legacy.current parser_of];
    try (intros -> _; reflexivity).
  unfold Legacy.parse_n, parse_n. intros Hp Hnull. revert Hp.
  destruct (str_eqb (trim raw) []);
    [intros [= <-]; now destruct (Hnull eq_refl)|].
  destruct (negb (Number_isFinite (Number_ofString (trim raw))));
    [intros [= <-]; now destruct (Hnull eq_refl)|].
  now intros [= <-].
Qed.

Lemma strict_value_supported (v : value) :
  Legacy.strict_value v = true ->
  supported v = true /\ nullify v = v /\ v <> VNull.
Proof.
  destruct v as [| |s|n|b|[t|]|b]; cbn; try discriminate;
    intros H; repeat split; try discriminate.
  now rewrite H.
Qed.

Lemma legacy_value_round_trip key (v : value) :
  Legacy.strict_value v = true -> host_faithful v ->
  exists a raw,
    Legacy.inferAlias v = Legacy.Return a
    /\ Legacy.encodeValue a key v = Legacy.Return raw
    /\ Legacy.parser_of a raw = Legacy.Return v
    /\ Tokenizer.quiet semicolon false false raw = true
    /\ Tokenizer.neutral bar raw = true.
Proof.
  intros Hstrict Hhost.
  destruct (strict_value_supported v Hstrict) as (Hsup & Hnull & Hne).
  destruct (value_round_trip key v Hsup Hhost)
    as (a' & raw' & _ & Ha' & He' & Hp & Hq & Hn).
  destruct (legacy_encode_step key v)
    as [[_ (a & raw & Ha & He & _ & Hca & Hce)]|[Hs _]]; [|congruence].
  rewrite Ha' in Hca. injection Hca as ->.
  rewrite He' in Hce. injection Hce as ->.
  exists a, raw. repeat split; try assumption.
  apply parser_agrees_back; [now rewrite Hnull in Hp|now intros _].
Qed.

Lemma legacy_decode_plain_row (result : object) key a raw v :
  plain_key key = true ->
  Tokenizer.quiet semicolon false false raw = true ->
  Legacy.parser_of a raw = Legacy.Return v ->
  Legacy.decode_row result (row_text key (Legacy.current a) raw)
  = Legacy.Return (set result key v).
Proof.
  intros Hk Hq Hv.
  destruct (plain_key_inv key Hk) as (Hne & Htrim & _ & Hsemi & _).
  unfold Legacy.decode_row. rewrite row_fields by assumption.
  rewrite Htrim, Hne.
  replace (trim [alias_unit (Legacy.current a)])
    with [alias_unit (Legacy.current a)] by now destruct a.
  replace (Legacy.ALIAS_TO_PARSER [alias_unit (Legacy.current a)])
    with (Legacy.Own a) by now destruct a.
  now rewrite Hv.
Qed.

Lemma legacy_encode_loop_acc (obj : object) keys : forall rows,
  Legacy.encode_loop obj keys rows
  = Legacy.andThen (Legacy.encode_loop obj keys [])
      (fun rs => Legacy.Return (rows ++ rs)).
Proof.
  induction keys as [|key keys IH]; intros rows; cbn [Legacy.encode_loop].
  - simpl. now rewrite app_nil_r.
  - destruct (Legacy.inferAlias (get obj key)) as [a| |]; simpl;
      try reflexivity.
    destruct (Legacy.encodeValue a key (get obj key)) as [raw| |]; simpl;
      try reflexivity.
    rewrite IH. rewrite (IH [_]).
    destruct (Legacy.encode_loop obj keys []); simpl; try reflexivity.
    now rewrite <- app_assoc.
Qed.

Lemma legacy_encode_loop_reads_back (obj : object) keys :
  (forall k, In k keys ->
     plain_key k = true /\ Legacy.strict_value (get obj k) = true
     /\ host_faithful (get obj k)) ->
  exists rows,
    Legacy.encode_loop obj keys [] = Legacy.Return rows
    /\ Forall2 (fun key row =>
                  Tokenizer.neutral bar row = true /\ row <> []
                  /\ forall result : object,
                       Legacy.decode_row result row
                       = Legacy.Return (set result key (get obj key)))
               keys rows.
Proof.
  induction keys as [|key keys IH]; intros Hkeys.
  - exists []. split; [reflexivity|constructor].
  - destruct (Hkeys key (or_introl eq_refl)) as (Hplain & Hstrict & Hhost).
    destruct (legacy_value_round_trip key (get obj key) Hstrict Hhost)
      as (a & raw & Ha & He & Hp & Hq & Hn).
    destruct IH as (rows & Hrows & Hall);
      [intros k Hk; apply Hkeys; now right|].
    exists (row_text key (Legacy.current a) raw :: rows). split.
    + cbn [Legacy.encode_loop]. rewrite Ha. cbn [Legacy.andThen].
      rewrite He. cbn [Legacy.andThen].
      rewrite legacy_encode_loop_acc, Hrows. reflexivity.
    + constructor; [|exact Hall].
      destruct (plain_key_inv key Hplain) as (_ & _ & _ & _ & Hbar).
      repeat split.
      * now apply row_neutral.
      * apply row_nonempty.
      * intros result. now apply legacy_decode_plain_row.
Qed.

Lemma legacy_decode_loop_reads_back (obj : object) keys rows :
  Forall2 (fun key row =>
             Tokenizer.neutral bar row = true /\ row <> []
             /\ forall result : object,
                  Legacy.decode_row result row
                  = Legacy.Return (set result key (get obj key)))
          keys rows ->
  (forall result,
     Legacy.decode_loop rows result
     = Legacy.Return (fold_left (fun r k => set r k (get obj k)) keys result))
  /\ Forall (fun r => Tokenizer.neutral bar r = true /\ r <> []) rows.
Proof.
  induction 1 as [|key row keys rows (Hn & Hne & Hrow) _ [IH1 IH2]].
  - split; [reflexivity|constructor].
  - split; [|constructor; auto].
    intros result. cbn [Legacy.decode_loop fold_left]. rewrite Hrow.
    cbn [Legacy.andThen]. apply IH1.
Qed.

(** X15. Round trip of the earlier codec: for a record whose values are
    strings, finite numbers, booleans or valid dates, whose keys are plain
    and whose numbers and dates the host prints and reads back faithfully,
    [decodeFlatPayload (encodeFlatPayload R)] succeeds and is deep-equal to
    R. *)
Theorem legacy_round_trip (l : list (jsstring * value)) :
  NoDup (map fst l) ->
  (forall k v, In (k, v) l ->
     plain_key k = true /\ Legacy.strict_value v = true /\ host_faithful v) ->
  exists doc o,
    Legacy.encodeFlatPayload (record l) = Legacy.Return doc
    /\ Legacy.decodeFlatPayload doc = Legacy.Return o
    /\ deep_equal o (record l).
Proof.
  intros Hnd Hl.
  assert (Hperm : Permutation (map fst l) (sort (map fst l)))
    by apply sort_perm.
  assert (Hkeys : forall k, In k (sort (map fst l)) ->
            plain_key k = true /\ Legacy.strict_value (get (record l) k) = true
            /\ host_faithful (get (record l) k)).
  { intros k Hk.
    apply (Permutation_in _ (Permutation_sym Hperm)) in Hk.
    destruct (key_entry k l Hk) as [v Hv].
    unfold record. erewrite get_own by eassumption. now apply Hl. }
  destruct (legacy_encode_loop_reads_back (record l) _ Hkeys)
    as (rows & Hrows & Hall).
  destruct (legacy_decode_loop_reads_back (record l) Hall)
    as [Hloop Hneutral].
  exists (join bar rows).
  exists (Obj (map (fun k => (k, get (record l) k)) (sort (map fst l)))
              ObjectPrototype).
  split; [|split].
  - unfold Legacy.encodeFlatPayload, Object_keys.
    change (props (record l)) with l.
    change (isPlainObject (record l)) with true. cbn [negb].
    now rewrite Hrows.
  - unfold Legacy.decodeFlatPayload.
    rewrite (decode_rows_join Hneutral), Hloop. f_equal.
    unfold empty_object. rewrite fold_set_fresh; [reflexivity| |].
    + eapply Permutation_NoDup; [exact Hperm|exact Hnd].
    + intros k Hk. destruct (Hkeys k Hk) as [Hplain _].
      destruct (plain_key_inv k Hplain) as (_ & _ & Hp & _).
      now split.
  - split; [reflexivity|]. intros k. cbn [props record].
    rewrite lookup_map_keys.
    destruct (mem k (sort (map fst l))) eqn:Hmem.
    + apply mem_In in Hmem.
      apply (Permutation_in _ (Permutation_sym Hperm)) in Hmem.
      destruct (key_entry k l Hmem) as [v Hv].
      unfold record. erewrite get_own by eassumption.
      erewrite lookup_in by eassumption. reflexivity.
    + assert (Hnot : ~ In k (map fst l)).
      { intros Hin. apply (Permutation_in _ Hperm) in Hin.
        apply mem_In in Hin. congruence. }
      apply lookup_none in Hnot. now rewrite Hnot.
Qed.

End LegacyRoundTrip.

Lemma legacy_round_trip_witness :
  exists doc o,
    Legacy.encodeFlatPayload
      (record [(u16 "name", VString (u16 "a;b|c" ++ [dquote; backslash]));
               (u16 "age", VNumber (Reference.Int 27));
               (u16 "createdAt", VDate (ValidDate 1767002400000))])
    = Legacy.Return doc
    /\ Legacy.decodeFlatPayload doc = Legacy.Return o
    /\ deep_equal o
         (record [(u16 "name", VString (u16 "a;b|c" ++ [dquote; backslash]));
                  (u16 "age", VNumber (Reference.Int 27));
                  (u16 "createdAt", VDate (ValidDate 1767002400000))]).
Proof.
  apply (@legacy_round_trip _ Reference.host).
  - repeat constructor; simpl; intuition discriminate.
  - intros k v [[= <- <-]|[[= <- <-]|[[= <- <-]|[]]]];
      (split; [vm_compute; reflexivity|split; [reflexivity|]]).
    + exact I.
    + intros _. vm_compute. repeat split; try reflexivity. discriminate.
    + exists 1767002400000%Z. split; [reflexivity|vm_compute; reflexivity].
Defined.

Section LegacySchema.

Context {number : Type} {host : Host number}.

Abbreviation value := (value number).
Abbreviation object := (object number).

Lemma legacy_inferAlias_agrees (v : value) a :
  Legacy.inferAlias v = Legacy.Return a -> inferAlias v = Ok (Legacy.current a).
Proof.
  destruct v as [| |s|n|b|[t|]|[|name]]; intros H; cbv in H;
    try discriminate; injection H as <-; reflexivity.
Qed.

Lemma legacy_schema_loop_agrees (raw : object) schema : forall out o : object,
  Legacy.schema_loop raw schema out = Legacy.Return o ->
  schema_loop raw (Legacy.current_schema schema) out = Ok o.
Proof.
  induction schema as [|[k sv] schema IH]; intros out o.
  - cbn. now intros [= <-].
  - cbn [Legacy.schema_loop Legacy.current_schema map schema_loop fst snd].
    replace (normalizeSchemaValue
               match sv with
               | Legacy.OfAlias a => Bare (Legacy.current a)
               | Legacy.OfRecord t o0 => Described (Legacy.current t) o0
               end)
      with (Legacy.current (fst (Legacy.normalizeSchemaValue sv)),
            snd (Legacy.normalizeSchemaValue sv))
      by now destruct sv.
    destruct (Legacy.normalizeSchemaValue sv) as [expected optional].
    cbn [fst snd].
    destruct (negb (has_property raw k)).
    + destruct optional; [apply IH|discriminate].
    + destruct (Legacy.inferAlias (get raw k)) as [a| |] eqn:Ha;
        cbn [Legacy.andThen]; try discriminate.
      rewrite (legacy_inferAlias_agrees _ Ha). cbn [bind].
      change (alias_eqb (Legacy.current a) (Legacy.current expected))
        with (Legacy.alias_eqb a expected).
      destruct (negb (Legacy.alias_eqb a expected)); [discriminate|apply IH].
Qed.

(** X17. The current validator extends the earlier one: when
    [decodeFlatPayloadWithSchema] returns a record for a document none of
    whose number rows has a blank text, [decodeWithSchema] returns the same
    record for the same schema. *)
Theorem decodeWithSchema_extends_legacy str schema (out : object) :
  Legacy.decodeFlatPayloadWithSchema str schema = Legacy.Return out ->
  forallb (fun row => negb (Legacy.blank_number_row row)) (decode_rows str)
  = true ->
  decodeWithSchema str (Legacy.current_schema schema) = Ok out.
Proof.
  unfold Legacy.decodeFlatPayloadWithSchema, Legacy.decodeFlatPayload,
    decodeWithSchema, decode.
  destruct (Legacy.decode_loop (decode_rows str) empty_object)
    as [raw| |] eqn:Hraw; cbn [Legacy.andThen]; try discriminate.
  intros Hout Hblank.
  rewrite (legacy_decode_loop_agrees _ _ Hraw Hblank). cbn [bind].
  now apply legacy_schema_loop_agrees.
Qed.

End LegacySchema.

Lemma decodeWithSchema_extends_legacy_witness :
  decodeWithSchema (u16 "age;n;27|ok;b;TRUE")
    (Legacy.current_schema
       [(u16 "age", Legacy.OfAlias Legacy.LN);
        (u16 "nick", Legacy.OfRecord Legacy.LS (Some true));
        (u16 "ok", Legacy.OfRecord Legacy.LB None)])
  = Ok (record [(u16 "age", VNumber (Reference.Int 27));
                (u16 "nick", VUndefined);
                (u16 "ok", VBoolean true)]).
Proof.
  apply (@decodeWithSchema_extends_legacy _ Reference.host);
    vm_compute; reflexivity.
Defined.

(** ** White space in a row *)

Lemma whitespace_plain c :
  is_whitespace c = true ->
  (c =? backslash) = false /\ (c =? dquote) = false
  /\ (c =? semicolon) = false.
Proof.
  intros H. repeat split; apply N.eqb_neq; intros ->; discriminate.
Qed.

Lemma whitespace_quiet p : forall inQ esc,
  forallb is_whitespace p = true ->
  Tokenizer.quiet semicolon inQ esc p = true.
Proof.
  induction p as [|c p IH]; intros inQ esc H; [reflexivity|].
  cbn [forallb] in H. apply andb_true_iff in H as [Hc Hp].
  destruct (whitespace_plain c Hc) as (Hb & Hq & Hs).
  cbn [Tokenizer.quiet]. rewrite Hb, Hq, Hs, andb_false_r.
  destruct esc; now apply IH.
Qed.

Lemma whitespace_flags p :
  forallb is_whitespace p = true ->
  Tokenizer.flags false false p = (false, false).
Proof.
  induction p as [|c p IH]; intros H; [reflexivity|].
  cbn [forallb] in H. apply andb_true_iff in H as [Hc Hp].
  destruct (whitespace_plain c Hc) as (Hb & Hq & _).
  cbn [Tokenizer.flags]. rewrite Hb, Hq. now apply IH.
Qed.

Lemma whitespace_neutral p :
  forallb is_whitespace p = true -> Tokenizer.neutral semicolon p = true.
Proof.
  intros H. apply neutral_intro;
    [now apply whitespace_quiet|now apply whitespace_flags].
Qed.

Lemma trimStart_whitespace p s :
  forallb is_whitespace p = true -> trimStart (p ++ s) = trimStart s.
Proof.
  induction p as [|c p IH]; intros H; [reflexivity|].
  cbn [forallb] in H. apply andb_true_iff in H as [Hc Hp].
  cbn [app trimStart]. rewrite Hc. now apply IH.
Qed.

Lemma forallb_rev (A : Type) (f : A -> bool) l :
  forallb f l = true -> forallb f (rev l) = true.
Proof.
  rewrite !forallb_forall. intros H x Hx. apply H. now apply in_rev.
Qed.

Lemma trimEnd_whitespace s p :
  forallb is_whitespace p = true -> trimEnd (s ++ p) = trimEnd s.
Proof.
  intros H. unfold trimEnd. rewrite rev_app_distr.
  rewrite trimStart_whitespace; [reflexivity|now apply forallb_rev].
Qed.

Lemma trimStart_app s p :
  forallb is_whitespace p = true ->
  trimStart (s ++ p) = trimStart s ++ p
  \/ (trimStart (s ++ p) = [] /\ trimStart s = []).
Proof.
  intros H. induction s as [|c s IH].
  - right. split; [|reflexivity].
    cbn [app]. rewrite <- (app_nil_r p).
    now rewrite trimStart_whitespace by assumption.
  - cbn [app trimStart]. destruct (is_whitespace c); [exact IH|now left].
Qed.

(** [trim] ignores white space added at either end. *)
Lemma trim_padding p s p' :
  forallb is_whitespace p = true -> forallb is_whitespace p' = true ->
  trim (p ++ s ++ p') = trim s.
Proof.
  intros Hp Hp'. unfold trim. rewrite trimStart_whitespace by assumption.
  destruct (trimStart_app s p' Hp') as [->|[-> ->]]; [|reflexivity].
  now apply trimEnd_whitespace.
Qed.

Section RowWhitespace.

Context {number : Type} {host : Host number}.

Abbreviation value := (value number).
Abbreviation object := (object number).

(** A parser that accepts a text accepts it with white space around it, and
    returns the same value. *)
Lemma parser_padding a raw (v : value) p p' :
  forallb is_whitespace p = true -> forallb is_whitespace p' = true ->
  parser_of a raw = Ok v -> parser_of a (p ++ raw ++ p') = Ok v.
Proof.
  intros Hp Hp'.
  destruct a; cbn [parser_of]; unfold parse_s, parse_n, parse_b, parse_d,
    parse_x; try rewrite (trim_padding _ _ _ Hp Hp'); try (intros H; exact H).
  - destruct (str_eqb (toLowerCase (trim raw)) (u16 "true")); [easy|].
    destruct (str_eqb (toLowerCase (trim raw)) (u16 "false")); [easy|].
    discriminate.
  - destruct (if startsWith_dquote (trim raw) && endsWith_dquote (trim raw)
              then match JSON.parse (trim raw) with
                   | Some s => Ok s
                   | None => Throw (SyntaxError (trim raw))
                   end
              else Ok (trim raw)) as [str| |]; cbn [bind]; try easy.
    destruct (Date_ofString str); [easy|discriminate].
Qed.

Lemma padded_fields k t raw :
  Tokenizer.neutral semicolon k = true ->
  Tokenizer.neutral semicolon t = true ->
  Tokenizer.quiet semicolon false false raw = true ->
  Tokenizer.splitOutsideQuotes (k ++ semicolon :: t ++ semicolon :: raw)
    semicolon
  = [k; t; raw].
Proof.
  intros Hk Ht Hr.
  apply neutral_inv in Hk as [Hqk Hfk], Ht as [Hqt Hft].
  rewrite splitOutsideQuotes_fields.
  rewrite fields_separator by (assumption || discriminate).
  rewrite fields_separator by (assumption || discriminate).
  now rewrite !quiet_fields by assumption.
Qed.

(** X16. White space in a row is ignored around the key, the alias and the
    value text. For a key in which no semicolon delimits, that leaves the
    scanner outside quotes and is not blank, and a value text without a
    delimiting semicolon that the parser of the alias accepts, the row with
    white space added on both sides of each of the three fields sets the
    trimmed key to the value the parser returns for the text without it. *)
Theorem decode_row_whitespace (result : object) key a raw v p1 p2 p3 p4 p5 p6 :
  forallb is_whitespace (p1 ++ p2 ++ p3 ++ p4 ++ p5 ++ p6) = true ->
  Tokenizer.neutral semicolon key = true ->
  trim key <> [] ->
  Tokenizer.quiet semicolon false false raw = true ->
  parser_of a raw = Ok v ->
  decode_row result
    ((p1 ++ key ++ p2) ++ semicolon
       :: (p3 ++ [alias_unit a] ++ p4) ++ semicolon :: (p5 ++ raw ++ p6))
  = Ok (set result (trim key) v).
Proof.
  intros Hws Hkey Hne Hraw Hv.
  repeat (rewrite forallb_app in Hws; apply andb_true_iff in Hws as [? Hws]).
  unfold decode_row. rewrite padded_fields.
  - rewrite !trim_padding by assumption.
    apply str_eqb_neq in Hne. rewrite Hne.
    replace (ALIAS_TO_PARSER (trim [alias_unit a])) with (Parser a)
      by now destruct a.
    now erewrite parser_padding by eassumption.
  - repeat apply neutral_app;
      (assumption || now apply whitespace_neutral).
  - repeat apply neutral_app;
      try now apply whitespace_neutral.
    now destruct a.
  - rewrite quiet_app, whitespace_flags by assumption.
    rewrite whitespace_quiet by assumption. cbn [fst snd andb].
    rewrite quiet_app, Hraw. now apply whitespace_quiet.
Qed.

End RowWhitespace.

Lemma decode_row_whitespace_witness :
  decode_row (@empty_object Reference.num)
    ((u16 " " ++ u16 "age" ++ [9]) ++ semicolon
       :: ([] ++ [alias_unit AN] ++ u16 "  ") ++ semicolon
       :: ([10] ++ u16 "27" ++ [160]))
  = Ok (set empty_object (trim (u16 "age")) (VNumber (Reference.Int 27))).
Proof.
  apply (@decode_row_whitespace _ Reference.host);
    try (vm_compute; reflexivity).
  vm_compute. discriminate.
Defined.
